(** * Fruit catcher game engine: a shallow embedding and its properties

    The development follows [gameEngine.js] (the "V4" engine with the
    particle pool, called the richer engine below) method by method.  The
    older lane-discrete engine of the same repository is embedded in
    [Module SimpleEngine] as far as its pose handling goes.

    Conventions of the embedding.
    - Integer-valued JavaScript numbers (score, life, level, combo, the frame
      timers) are [Z]; the model is exact as long as they stay below 2^53.
    - Real-valued numbers (positions, speeds, particle physics) are IEEE-754
      binary64 values, Rocq's primitive [float], which is the number type of
      JavaScript.
    - The host's [Math.random], [Math.cos] and [Math.sin] are parameters of
      the engine: [Math_random n] is the value of the n-th call made during
      a run.
    - A method is a computation over a [World]: the engine object [this], the
      number of random draws made so far, and the chronological list of
      observable effects (listener calls, console output, canvas commands).
      A listener only observes: it does not call back into the engine.
      Dereferencing the [null] canvas raises a [TypeError], which aborts the
      method and keeps the mutations made before it.

    The file has the definitions first (data, computations, the two engines,
    the notions the statements use, the worlds of the examples), then the
    properties that hold for any host, then the closed examples. *)

From Stdlib Require Import ZArith List String Ascii Bool Lia.
From Stdlib Require Import Floats.
Import ListNotations.

Set Warnings "-inexact-float".
Set Implicit Arguments.

Local Open Scope string_scope.
Local Open Scope Z_scope.

(** ** Numbers *)

(** The float of an integer (exact below 2^53). *)
Definition Z2F (z : Z) : float :=
  if z <? 0 then (- of_uint63 (Uint63.of_Z (- z)))%float
  else of_uint63 (Uint63.of_Z z).

(** [Math.floor], computed on the binary representation. *)
Definition Math_floor (x : float) : float :=
  match Prim2SF x with
  | S754_finite s m e =>
      if 0 <=? e then x
      else
        let q := Z.shiftr (Z.pos m) (- e) in
        let exact := Z.shiftl q (- e) =? Z.pos m in
        let mag := if s then (if exact then q else q + 1) else q in
        let f := of_uint63 (Uint63.of_Z mag) in
        if s then (- f)%float else f
  | _ => x
  end.

Definition Math_PI : float := 3.141592653589793%float.

(** ** The rendering context *)

Inductive Style :=
| css (s : string)
| rgba (r g b : Z) (a : float).

(** The calls and property writes made on the 2D rendering context. *)
Inductive CanvasOp :=
| fillStyle (s : Style)
| strokeStyle (s : Style)
| lineWidth (w : float)
| globalAlpha (a : float)
| textAlign (s : string)
| textBaseline (s : string)
| font (s : string)
| fillRect (x y w h : float)
| save
| restore
| translate (dx dy : float)
| rotate (a : float)
| beginPath
| closePath
| moveTo (x y : float)
| lineTo (x y : float)
| stroke
| fill
| arc (x y r a0 a1 : float)
| fillText (s : string) (x y : float).

(** ** Data model *)

Inductive GameState := READY | PLAYING | GAME_OVER.

Definition GameState_eqb (a b : GameState) : bool :=
  match a, b with
  | READY, READY | PLAYING, PLAYING | GAME_OVER, GAME_OVER => true
  | _, _ => false
  end.

(** The [id] of an entry of [types] in [spawnItem]. *)
Inductive ItemType := apple | grape | orange | diamond | bomb.

Definition ItemType_eqb (a b : ItemType) : bool :=
  match a, b with
  | apple, apple | grape, grape | orange, orange
  | diamond, diamond | bomb, bomb => true
  | _, _ => false
  end.

(** A falling item, the object literal pushed by [spawnItem].  The icon is
    kept by name: it is only ever handed to [fillText]. *)
Module Item.

Record t := mk {
  x : float;
  y : float;
  type : ItemType;
  score : Z;
  icon : string;
  color : string;
  speed : float;
  angle : float
}.

End Item.

Module Particle.

Record t := mk {
  active : bool;
  x : float;
  y : float;
  vx : float;
  vy : float;
  life : float;
  color : string;
  size : float
}.

(** [constructor()] *)
Definition new : t :=
  {| active := false; x := 0; y := 0; vx := 0; vy := 0; life := 0;
     color := "#FFF"; size := 0 |}.

(** [update()] *)
Definition update (p : t) : t :=
  if negb (active p) then p
  else
    let x' := (x p + vx p)%float in
    let y' := (y p + vy p)%float in
    let vy' := (vy p + 0.2)%float in
    let life' := (life p - 0.03)%float in
    let size' := (size p * 0.96)%float in
    {| active := if (life' <=? 0)%float then false else active p;
       x := x'; y := y'; vx := vx p; vy := vy'; life := life';
       color := color p; size := size' |}.

(** [spawn(x, y, color)], given the host's cosine and sine and the three
    values its calls of [Math.random()] return, in call order. *)
Definition spawn (cos sin : float -> float) (r1 r2 r3 : float)
    (x0 y0 : float) (c : string) (p : t) : t :=
  let angle := (r1 * Math_PI * 2)%float in
  let speed := (r2 * 5 + 2)%float in
  {| active := true; x := x0; y := y0;
     vx := (cos angle * speed)%float; vy := (sin angle * speed)%float;
     life := 1.0; color := c; size := (r3 * 6 + 4)%float |}.

(** [p.active = false], the body of the reset in [start()]. *)
Definition deactivate (p : t) : t :=
  {| active := false; x := x p; y := y p; vx := vx p; vy := vy p;
     life := life p; color := color p; size := size p |}.

(** [draw(ctx)] *)
Definition draw (p : t) : list CanvasOp :=
  if negb (active p) then []
  else [ globalAlpha (life p); fillStyle (css (color p)); beginPath;
         arc (x p) (y p) (size p) 0 (Math_PI * 2)%float; fill;
         globalAlpha 1.0 ].

End Particle.

Record Canvas := mkCanvas {
  width : float;
  height : float;
  (** whether [getContext("2d")] yields a context rather than [null] *)
  getContext : bool
}.

(** The engine object.  [ctx] is [true] when a rendering context is held;
    [onScoreChange] and [onGameEnd] are [true] when a listener is
    installed ([null] otherwise). *)
Record GameEngine := mkGameEngine {
  ctx : bool;
  canvas : option Canvas;
  state : GameState;
  score : Z;
  life : Z;
  level : Z;
  combo : Z;
  maxCombo : Z;
  items : list Item.t;
  laneCount : Z;
  playerLane : Z;
  playerX : float;
  targetX : float;
  shakeTimer : Z;
  flashTimer : Z;
  baseSpeed : float;
  spawnTimer : Z;
  spawnInterval : Z;
  particles : list Particle.t;
  onScoreChange : bool;
  onGameEnd : bool
}.

(** Field assignments [this.f = v]. *)
Definition set_ctx v (g : GameEngine) :=
  mkGameEngine v (canvas g) (state g) (score g) (life g) (level g) (combo g)
    (maxCombo g) (items g) (laneCount g) (playerLane g) (playerX g)
    (targetX g) (shakeTimer g) (flashTimer g) (baseSpeed g) (spawnTimer g)
    (spawnInterval g) (particles g) (onScoreChange g) (onGameEnd g).
Definition set_canvas v (g : GameEngine) :=
  mkGameEngine (ctx g) v (state g) (score g) (life g) (level g) (combo g)
    (maxCombo g) (items g) (laneCount g) (playerLane g) (playerX g)
    (targetX g) (shakeTimer g) (flashTimer g) (baseSpeed g) (spawnTimer g)
    (spawnInterval g) (particles g) (onScoreChange g) (onGameEnd g).
Definition set_state v (g : GameEngine) :=
  mkGameEngine (ctx g) (canvas g) v (score g) (life g) (level g) (combo g)
    (maxCombo g) (items g) (laneCount g) (playerLane g) (playerX g)
    (targetX g) (shakeTimer g) (flashTimer g) (baseSpeed g) (spawnTimer g)
    (spawnInterval g) (particles g) (onScoreChange g) (onGameEnd g).
Definition set_score v (g : GameEngine) :=
  mkGameEngine (ctx g) (canvas g) (state g) v (life g) (level g) (combo g)
    (maxCombo g) (items g) (laneCount g) (playerLane g) (playerX g)
    (targetX g) (shakeTimer g) (flashTimer g) (baseSpeed g) (spawnTimer g)
    (spawnInterval g) (particles g) (onScoreChange g) (onGameEnd g).
Definition set_life v (g : GameEngine) :=
  mkGameEngine (ctx g) (canvas g) (state g) (score g) v (level g) (combo g)
    (maxCombo g) (items g) (laneCount g) (playerLane g) (playerX g)
    (targetX g) (shakeTimer g) (flashTimer g) (baseSpeed g) (spawnTimer g)
    (spawnInterval g) (particles g) (onScoreChange g) (onGameEnd g).
Definition set_level v (g : GameEngine) :=
  mkGameEngine (ctx g) (canvas g) (state g) (score g) (life g) v (combo g)
    (maxCombo g) (items g) (laneCount g) (playerLane g) (playerX g)
    (targetX g) (shakeTimer g) (flashTimer g) (baseSpeed g) (spawnTimer g)
    (spawnInterval g) (particles g) (onScoreChange g) (onGameEnd g).
Definition set_combo v (g : GameEngine) :=
  mkGameEngine (ctx g) (canvas g) (state g) (score g) (life g) (level g) v
    (maxCombo g) (items g) (laneCount g) (playerLane g) (playerX g)
    (targetX g) (shakeTimer g) (flashTimer g) (baseSpeed g) (spawnTimer g)
    (spawnInterval g) (particles g) (onScoreChange g) (onGameEnd g).
Definition set_items v (g : GameEngine) :=
  mkGameEngine (ctx g) (canvas g) (state g) (score g) (life g) (level g)
    (combo g) (maxCombo g) v (laneCount g) (playerLane g) (playerX g)
    (targetX g) (shakeTimer g) (flashTimer g) (baseSpeed g) (spawnTimer g)
    (spawnInterval g) (particles g) (onScoreChange g) (onGameEnd g).
Definition set_playerX v (g : GameEngine) :=
  mkGameEngine (ctx g) (canvas g) (state g) (score g) (life g) (level g)
    (combo g) (maxCombo g) (items g) (laneCount g) (playerLane g) v
    (targetX g) (shakeTimer g) (flashTimer g) (baseSpeed g) (spawnTimer g)
    (spawnInterval g) (particles g) (onScoreChange g) (onGameEnd g).
Definition set_targetX v (g : GameEngine) :=
  mkGameEngine (ctx g) (canvas g) (state g) (score g) (life g) (level g)
    (combo g) (maxCombo g) (items g) (laneCount g) (playerLane g) (playerX g)
    v (shakeTimer g) (flashTimer g) (baseSpeed g) (spawnTimer g)
    (spawnInterval g) (particles g) (onScoreChange g) (onGameEnd g).
Definition set_shakeTimer v (g : GameEngine) :=
  mkGameEngine (ctx g) (canvas g) (state g) (score g) (life g) (level g)
    (combo g) (maxCombo g) (items g) (laneCount g) (playerLane g) (playerX g)
    (targetX g) v (flashTimer g) (baseSpeed g) (spawnTimer g)
    (spawnInterval g) (particles g) (onScoreChange g) (onGameEnd g).
Definition set_flashTimer v (g : GameEngine) :=
  mkGameEngine (ctx g) (canvas g) (state g) (score g) (life g) (level g)
    (combo g) (maxCombo g) (items g) (laneCount g) (playerLane g) (playerX g)
    (targetX g) (shakeTimer g) v (baseSpeed g) (spawnTimer g)
    (spawnInterval g) (particles g) (onScoreChange g) (onGameEnd g).
Definition set_baseSpeed v (g : GameEngine) :=
  mkGameEngine (ctx g) (canvas g) (state g) (score g) (life g) (level g)
    (combo g) (maxCombo g) (items g) (laneCount g) (playerLane g) (playerX g)
    (targetX g) (shakeTimer g) (flashTimer g) v (spawnTimer g)
    (spawnInterval g) (particles g) (onScoreChange g) (onGameEnd g).
Definition set_spawnTimer v (g : GameEngine) :=
  mkGameEngine (ctx g) (canvas g) (state g) (score g) (life g) (level g)
    (combo g) (maxCombo g) (items g) (laneCount g) (playerLane g) (playerX g)
    (targetX g) (shakeTimer g) (flashTimer g) (baseSpeed g) v
    (spawnInterval g) (particles g) (onScoreChange g) (onGameEnd g).
Definition set_particles v (g : GameEngine) :=
  mkGameEngine (ctx g) (canvas g) (state g) (score g) (life g) (level g)
    (combo g) (maxCombo g) (items g) (laneCount g) (playerLane g) (playerX g)
    (targetX g) (shakeTimer g) (flashTimer g) (baseSpeed g) (spawnTimer g)
    (spawnInterval g) v (onScoreChange g) (onGameEnd g).
Definition set_onScoreChange v (g : GameEngine) :=
  mkGameEngine (ctx g) (canvas g) (state g) (score g) (life g) (level g)
    (combo g) (maxCombo g) (items g) (laneCount g) (playerLane g) (playerX g)
    (targetX g) (shakeTimer g) (flashTimer g) (baseSpeed g) (spawnTimer g)
    (spawnInterval g) (particles g) v (onGameEnd g).
Definition set_onGameEnd v (g : GameEngine) :=
  mkGameEngine (ctx g) (canvas g) (state g) (score g) (life g) (level g)
    (combo g) (maxCombo g) (items g) (laneCount g) (playerLane g) (playerX g)
    (targetX g) (shakeTimer g) (flashTimer g) (baseSpeed g) (spawnTimer g)
    (spawnInterval g) (particles g) (onScoreChange g) v.

(** ** Observable effects *)

Inductive Effect :=
| OnScoreChange (score life level combo : Z)
| OnGameEnd (score level : Z)
| ConsoleLog (s : string)
| Draw (op : CanvasOp).

(** ** Computations *)

Record World := mkWorld {
  this : GameEngine;
  draws : nat;
  effects : list Effect
}.

Inductive Completion (A : Type) :=
| Normal (a : A)
| TypeError.
Arguments TypeError {A}.

Definition M (A : Type) : Type := World -> Completion A * World.

Definition ret {A} (a : A) : M A := fun w => (Normal a, w).

Definition bind {A B} (m : M A) (k : A -> M B) : M B :=
  fun w =>
    match m w with
    | (Normal a, w') => k a w'
    | (TypeError, w') => (TypeError, w')
    end.

Notation "x <- m ;; k" := (bind m (fun x => k))
  (at level 61, m at next level, right associativity).
Notation "m ;; k" := (bind m (fun _ => k))
  (at level 61, right associativity).

(** Read a field of [this]. *)
Definition get {A} (f : GameEngine -> A) : M A :=
  fun w => (Normal (f (this w)), w).

(** Write to [this]. *)
Definition assign (f : GameEngine -> GameEngine) : M unit :=
  fun w => (Normal tt, mkWorld (f (this w)) (draws w) (effects w)).

Definition emit (e : Effect) : M unit :=
  fun w => (Normal tt, mkWorld (this w) (draws w) (effects w ++ [e])).

Definition throw {A} : M A := fun w => (TypeError, w).

(** [this.canvas.width] and [this.canvas.height] need a canvas. *)
Definition theCanvas : M Canvas :=
  c <- get canvas ;;
  match c with
  | Some c => ret c
  | None => throw
  end.

Definition when (b : bool) (m : M unit) : M unit :=
  if b then m else ret tt.

(** The world a computation leaves behind, however it completes. *)
Definition exec {A} (m : M A) (w : World) : World := snd (m w).

Definition draw_ops (ops : list CanvasOp) : M unit :=
  fun w => (Normal tt, mkWorld (this w) (draws w) (effects w ++ map Draw ops)).

(** ** The lane-discrete engine (the older [gameEngine.js])

    Its pose handling: the player is on one of three lanes, and a label is
    compared after [toUpperCase()].  Labels are ASCII strings here; the
    Unicode case mapping of other characters is outside the model. *)
Module SimpleEngine.

Record Item := mkItem {
  lane : Z;
  y : float;
  type : string;
  speed : float
}.

Record t := mk {
  state : GameState;
  score : Z;
  life : Z;
  level : Z;
  playerLane : Z;
  items : list Item;
  spawnTimer : Z;
  spawnInterval : Z;
  baseSpeed : float
}.

Definition constructor : t :=
  {| state := READY; score := 0; life := 3; level := 1; playerLane := 1;
     items := []; spawnTimer := 0; spawnInterval := 120; baseSpeed := 2.0 |}.

(** [start()], on the fields above. *)
Definition start (g : t) : t :=
  {| state := PLAYING; score := 0; life := 3; level := 1; playerLane := 1;
     items := []; spawnTimer := 0; spawnInterval := spawnInterval g;
     baseSpeed := 2.0 |}.

Definition upper (c : ascii) : ascii :=
  let n := nat_of_ascii c in
  if ((97 <=? n) && (n <=? 122))%nat then ascii_of_nat (n - 32) else c.

Fixpoint toUpperCase (s : string) : string :=
  match s with
  | EmptyString => EmptyString
  | String c r => String (upper c) (toUpperCase r)
  end.

Definition set_playerLane (v : Z) (g : t) : t :=
  {| state := state g; score := score g; life := life g; level := level g;
     playerLane := v; items := items g; spawnTimer := spawnTimer g;
     spawnInterval := spawnInterval g; baseSpeed := baseSpeed g |}.

(** [setPose(poseLabel)] *)
Definition setPose (poseLabel : string) (g : t) : t :=
  if negb (GameState_eqb (state g) PLAYING) then g
  else
    let label := toUpperCase poseLabel in
    if (label =? "LEFT")%string then set_playerLane 0 g
    else if (label =? "CENTER")%string then set_playerLane 1 g
    else if (label =? "RIGHT")%string then set_playerLane 2 g
    else g.

Definition set_state (v : GameState) (g : t) : t :=
  {| state := v; score := score g; life := life g; level := level g;
     playerLane := playerLane g; items := items g;
     spawnTimer := spawnTimer g; spawnInterval := spawnInterval g;
     baseSpeed := baseSpeed g |}.

Definition set_score (v : Z) (g : t) : t :=
  {| state := state g; score := v; life := life g; level := level g;
     playerLane := playerLane g; items := items g;
     spawnTimer := spawnTimer g; spawnInterval := spawnInterval g;
     baseSpeed := baseSpeed g |}.

Definition set_life (v : Z) (g : t) : t :=
  {| state := state g; score := score g; life := v; level := level g;
     playerLane := playerLane g; items := items g;
     spawnTimer := spawnTimer g; spawnInterval := spawnInterval g;
     baseSpeed := baseSpeed g |}.

Definition set_level (v : Z) (g : t) : t :=
  {| state := state g; score := score g; life := life g; level := v;
     playerLane := playerLane g; items := items g;
     spawnTimer := spawnTimer g; spawnInterval := spawnInterval g;
     baseSpeed := baseSpeed g |}.

Definition set_baseSpeed (v : float) (g : t) : t :=
  {| state := state g; score := score g; life := life g; level := level g;
     playerLane := playerLane g; items := items g;
     spawnTimer := spawnTimer g; spawnInterval := spawnInterval g;
     baseSpeed := v |}.

(** What this engine tells its listeners: [onScoreChange(score, life,
    level)] and [onGameEnd(score, level)]. *)
Inductive Notice :=
| ScoreChanged (score life level : Z)
| GameEnded (score level : Z).

(** [gameOver()].  The two listener fields, which the engine never writes,
    are parameters of the methods that read them: [true] when a listener
    is installed. *)
Definition gameOver (onGameEnd : bool) (g : t) : t * list Notice :=
  let g := set_state GAME_OVER g in
  (g, if onGameEnd then [GameEnded (score g) (level g)] else []).

(** The [switch] of [handleCollision]: the score an item type is worth. *)
Definition scoreDelta (type : string) : Z :=
  if (type =? "apple")%string then 100
  else if (type =? "banana")%string then 200
  else if (type =? "gold")%string then 500
  else 0.

(** [handleCollision(item)] *)
Definition handleCollision (onScoreChange onGameEnd : bool) (item : Item)
    (g : t) : t * list Notice :=
  let g := if (type item =? "bomb")%string then set_life (life g - 1) g
           else g in
  let g := set_score (score g + scoreDelta (type item)) g in
  let g := set_level (1 + score g / 1000) g in
  let g := set_baseSpeed (2.0 + Z2F (level g - 1) * 0.5)%float g in
  let told :=
    if onScoreChange then [ScoreChanged (score g) (life g) (level g)]
    else [] in
  if life g <=? 0 then
    let '(g, ended) := gameOver onGameEnd g in (g, (told ++ ended)%list)
  else (g, told).

(** The engine after the collisions with the items of a list, in order. *)
Definition collisions (onScoreChange onGameEnd : bool) (its : list Item)
    (g : t) : t :=
  fold_left (fun g it => fst (handleCollision onScoreChange onGameEnd it g))
    its g.

(** The bombs of a list of items, counted. *)
Definition bombs (its : list Item) : Z :=
  Z.of_nat (List.length (filter (fun it => (type it =? "bomb")%string) its)).

(** The score the items of a list are worth, summed. *)
Definition worth (its : list Item) : Z :=
  fold_right (fun it s => scoreDelta (type it) + s) 0 its.

End SimpleEngine.

(** ** Counting the pool *)

Definition active_count (ps : list Particle.t) : nat :=
  List.length (filter Particle.active ps).

Definition inactive_count (ps : list Particle.t) : nat :=
  List.length (filter (fun p => negb (Particle.active p)) ps).

(** ** Notifications and the level they report *)

(** The level a listener is told, for the two notifications that carry one. *)
Definition reported_level (e : Effect) : option Z :=
  match e with
  | OnScoreChange _ _ l _ => Some l
  | OnGameEnd _ l => Some l
  | _ => None
  end.

Definition reports_level_1 (e : Effect) : Prop :=
  match reported_level e with
  | Some l => l = 1
  | None => True
  end.

(** ** A concrete host, for closed examples

    Any functions will do for the parameters; these give draws in [0, 1) and
    polynomial stand-ins for the cosine and the sine. *)
Definition demo_random (n : nat) : float :=
  (Z2F (Z.of_nat ((n * 37 + 11) mod 100)) / 100)%float.

Definition demo_cos (a : float) : float :=
  (1 - a * a / 2 + a * a * a * a / 24)%float.

Definition demo_sin (a : float) : float :=
  (a - a * a * a / 6)%float.

(** ** The richer engine ([gameEngine.js], V4) *)

(** [new GameEngine()] *)
Definition constructor : GameEngine :=
  {| ctx := false; canvas := None;
     state := READY; score := 0; life := 3; level := 1; combo := 0;
     maxCombo := 0;
     items := []; laneCount := 3;
     playerLane := 1; playerX := 0; targetX := 0;
     shakeTimer := 0; flashTimer := 0;
     baseSpeed := 6.0; spawnTimer := 0; spawnInterval := 45;
     particles := repeat Particle.new 100;
     onScoreChange := false; onGameEnd := false |}.

(** The entries of [types] in [spawnItem], as the fields they give an item. *)
Definition types (i : nat) : ItemType * Z * string * string :=
  match i with
  | 0%nat => (apple, 100, "#FF4444", "apple")
  | 1%nat => (grape, 200, "#AA44FF", "grapes")
  | 2%nat => (orange, 300, "#FFAA00", "tangerine")
  | 3%nat => (diamond, 1000, "#00FFFF", "gem")
  | _ => (bomb, 0, "#666666", "bomb")
  end.

Section Engine.

(** The host: the n-th value of [Math.random()], [Math.cos], [Math.sin]. *)
Variable Math_random : nat -> float.
Variables Math_cos Math_sin : float -> float.

Definition random : M float :=
  fun w => (Normal (Math_random (draws w)),
            mkWorld (this w) (S (draws w)) (effects w)).

(** [init(canvas)] *)
Definition init (c : Canvas) : M unit :=
  assign (set_canvas (Some c)) ;;
  assign (set_ctx (getContext c)) ;;
  assign (set_playerX (width c / 2)%float) ;;
  assign (set_targetX (width c / 2)%float).

(** [notifyUI()] *)
Definition notifyUI : M unit :=
  l <- get onScoreChange ;;
  g <- get (fun g => g) ;;
  when l (emit (OnScoreChange (score g) (life g) (level g) (combo g))).

(** [start()] *)
Definition start : M unit :=
  assign (set_state PLAYING) ;;
  assign (set_score 0) ;;
  assign (set_life 3) ;;
  assign (set_level 1) ;;
  assign (set_combo 0) ;;
  assign (set_items []) ;;
  assign (set_baseSpeed 6.0) ;;
  assign (fun g => set_particles (map Particle.deactivate (particles g)) g) ;;
  emit (ConsoleLog "Game V4 Started") ;;
  notifyUI.

(** [gameOver()] *)
Definition gameOver : M unit :=
  assign (set_state GAME_OVER) ;;
  l <- get onGameEnd ;;
  g <- get (fun g => g) ;;
  when l (emit (OnGameEnd (score g) (level g))).

(** [setPose(poseLabel)] *)
Definition setPose (poseLabel : string) : M unit :=
  st <- get state ;;
  if negb (GameState_eqb st PLAYING) then ret tt
  else
    c <- theCanvas ;;
    let laneWidth := (width c / 3)%float in
    if (poseLabel =? "Left")%string
    then assign (set_targetX (laneWidth * 0.5)%float)
    else if (poseLabel =? "Center")%string
    then assign (set_targetX (laneWidth * 1.5)%float)
    else if (poseLabel =? "Right")%string
    then assign (set_targetX (laneWidth * 2.5)%float)
    else ret tt.

(** [p.spawn(x, y, color)] with its three draws. *)
Definition Particle_spawn (x y : float) (color : string) (p : Particle.t)
  : M Particle.t :=
  r1 <- random ;;
  r2 <- random ;;
  r3 <- random ;;
  ret (Particle.spawn Math_cos Math_sin r1 r2 r3 x y color p).

(** The [for ... of] loop of [spawnExplosion] over the rest of the pool,
    [count] particles having been spawned so far. *)
Fixpoint spawnExplosion_loop (x y : float) (color : string) (count : Z)
    (ps : list Particle.t) : M (list Particle.t) :=
  match ps with
  | [] => ret []
  | p :: rest =>
      if negb (Particle.active p) then
        p' <- Particle_spawn x y color p ;;
        let count := count + 1 in
        if count >=? 15 then ret (p' :: rest)
        else
          rest' <- spawnExplosion_loop x y color count rest ;;
          ret (p' :: rest')
      else
        rest' <- spawnExplosion_loop x y color count rest ;;
        ret (p :: rest')
  end.

(** [spawnExplosion(x, y, color)] *)
Definition spawnExplosion (x y : float) (color : string) : M unit :=
  ps <- get particles ;;
  ps' <- spawnExplosion_loop x y color 0 ps ;;
  assign (set_particles ps').

(** [resetCombo()] *)
Definition resetCombo : M unit :=
  assign (set_combo 0) ;;
  notifyUI.

(** [handleCollision(item)] *)
Definition handleCollision (item : Item.t) : M unit :=
  (if ItemType_eqb (Item.type item) bomb then
     assign (fun g => set_life (life g - 1) g) ;;
     resetCombo ;;
     assign (set_shakeTimer 20) ;;
     spawnExplosion (Item.x item) (Item.y item) "#555"
   else
     assign (fun g => set_combo (combo g + 1) g) ;;
     c <- get combo ;;
     let multiplier := 1 + c / 10 in
     assign (fun g => set_score (score g + Item.score item * multiplier) g) ;;
     spawnExplosion (Item.x item) (Item.y item) (Item.color item) ;;
     when (ItemType_eqb (Item.type item) diamond)
          (assign (set_flashTimer 5)) ;;
     s <- get score ;;
     when (Z.rem s 1000 <? 200)
          (assign (fun g => set_baseSpeed (baseSpeed g + 0.05)%float g))) ;;
  notifyUI ;;
  l <- get life ;;
  when (l <=? 0) gameOver.

(** [spawnItem()] *)
Definition spawnItem : M unit :=
  r0 <- random ;;
  let lane := Math_floor (r0 * 3)%float in
  c <- theCanvas ;;
  let laneWidth := (width c / 3)%float in
  let x := ((lane * laneWidth) + (laneWidth / 2))%float in
  r <- random ;;
  let type :=
    if (r <? 0.2)%float then types 4
    else if (r <? 0.3)%float then types 3
    else if (r <? 0.5)%float then types 2
    else if (r <? 0.7)%float then types 1
    else types 0 in
  let '(id, sc, col, ico) := type in
  b <- get baseSpeed ;;
  r2 <- random ;;
  assign (fun g =>
    set_items (items g ++
      [ {| Item.x := x; Item.y := (-60)%float; Item.type := id;
           Item.score := sc; Item.icon := ico; Item.color := col;
           Item.speed := (b + r2 * 2)%float; Item.angle := 0%float |} ]) g).

(** [item.y += item.speed; item.angle += 0.05] *)
Definition advance (item : Item.t) : Item.t :=
  {| Item.x := Item.x item; Item.y := (Item.y item + Item.speed item)%float;
     Item.type := Item.type item; Item.score := Item.score item;
     Item.icon := Item.icon item; Item.color := Item.color item;
     Item.speed := Item.speed item;
     Item.angle := (Item.angle item + 0.05)%float |}.

(** The collision test of [update], on an item already advanced. *)
Definition collides (playerY hitDist px : float) (item : Item.t) : bool :=
  (abs (Item.y item - playerY) <? hitDist)%float
  && (abs (Item.x item - px) <? hitDist)%float.

(** The item loop of [update].  The source walks the array from its last
    index down and splices out the items it drops, so the items after the
    head are visited before the head; the result is the list of the items
    that stay, in their order. *)
Fixpoint update_items (playerY hitDist h : float) (its : list Item.t)
  : M (list Item.t) :=
  match its with
  | [] => ret []
  | it :: rest =>
      rest' <- update_items playerY hitDist h rest ;;
      let item := advance it in
      px <- get playerX ;;
      if collides playerY hitDist px item then
        handleCollision item ;;
        ret rest'
      else if (h <? Item.y item)%float then
        resetCombo ;;
        ret rest'
      else ret (item :: rest')
  end.

(** [update()] *)
Definition update : M unit :=
  st <- get state ;;
  if negb (GameState_eqb st PLAYING) then ret tt
  else
    assign (fun g =>
      set_playerX (playerX g + (targetX g - playerX g) * 0.4)%float g) ;;
    assign (fun g => set_spawnTimer (spawnTimer g + 1) g) ;;
    t <- get spawnTimer ;;
    i <- get spawnInterval ;;
    when (i <? t) (spawnItem ;; assign (set_spawnTimer 0)) ;;
    c <- theCanvas ;;
    let playerY := (height c * 0.85)%float in
    let hitDist := 50%float in
    its <- get items ;;
    its' <- update_items playerY hitDist (height c) its ;;
    assign (set_items its') ;;
    assign (fun g => set_particles (map Particle.update (particles g)) g) ;;
    sh <- get shakeTimer ;;
    when (0 <? sh) (assign (set_shakeTimer (sh - 1))) ;;
    fl <- get flashTimer ;;
    when (0 <? fl) (assign (set_flashTimer (fl - 1))).

(** The lane guides drawn by [draw], for [i] from 1 to 2. *)
Definition draw_lane (w h i : float) : list CanvasOp :=
  [ beginPath; strokeStyle (css "rgba(255, 255, 255, 0.1)");
    moveTo (w / 3 * i)%float 0%float; lineTo (w / 3 * i)%float h; stroke ].

Definition draw_item (item : Item.t) : list CanvasOp :=
  [ save; translate (Item.x item) (Item.y item); rotate (Item.angle item);
    fillText (Item.icon item) 0%float 0%float; restore ].

(** [draw()] *)
Definition draw : M unit :=
  cx <- get ctx ;;
  if negb cx then ret tt
  else
    c <- theCanvas ;;
    let w := width c in
    let h := height c in
    draw_ops [ fillStyle (css "#111"); fillRect 0 0 w h; save ] ;;
    sh <- get shakeTimer ;;
    (if 0 <? sh then
       r1 <- random ;;
       r2 <- random ;;
       draw_ops [ translate ((r1 - 0.5) * 10)%float ((r2 - 0.5) * 10)%float ]
     else ret tt) ;;
    draw_ops (lineWidth 2 :: draw_lane w h 1 ++ draw_lane w h 2) ;;
    ps <- get particles ;;
    draw_ops (flat_map Particle.draw ps) ;;
    draw_ops [ textAlign "center"; textBaseline "middle";
               font "40px sans-serif" ] ;;
    its <- get items ;;
    draw_ops (flat_map draw_item its) ;;
    let playerY := (h * 0.85)%float in
    cb <- get combo ;;
    px <- get playerX ;;
    draw_ops [ fillStyle (css (if 10 <? cb then "#FF00FF" else "#00FFFF"));
               beginPath;
               moveTo (px - 30)%float (playerY - 20)%float;
               lineTo (px + 30)%float (playerY - 20)%float;
               lineTo (px + 20)%float (playerY + 20)%float;
               lineTo (px - 20)%float (playerY + 20)%float;
               closePath; fill ] ;;
    fl <- get flashTimer ;;
    when (0 <? fl)
         (draw_ops [ fillStyle (rgba 255 255 255 (Z2F fl * 0.1)%float);
                     fillRect 0 0 w h ]) ;;
    draw_ops [ restore ] ;;
    st <- get state ;;
    when (GameState_eqb st GAME_OVER)
         (draw_ops [ fillStyle (css "rgba(0,0,0,0.8)"); fillRect 0 0 w h;
                     fillStyle (css "white"); font "bold 40px sans-serif";
                     fillText "GAME OVER" (w / 2)%float (h / 2)%float ]).

(** ** Runs of the engine *)

(** A call made on the engine from outside: its methods, and the two
    listener fields the page assigns. *)
Inductive Call :=
| Init (c : Canvas)
| Start
| SetPose (poseLabel : string)
| Update
| DrawFrame
| SpawnExplosion (x y : float) (color : string)
| SpawnItem
| ResetCombo
| NotifyUI
| GameOver
| ListenScoreChange (installed : bool)
| ListenGameEnd (installed : bool).

Definition call (c : Call) : M unit :=
  match c with
  | Init cv => init cv
  | Start => start
  | SetPose l => setPose l
  | Update => update
  | DrawFrame => draw
  | SpawnExplosion x y col => spawnExplosion x y col
  | SpawnItem => spawnItem
  | ResetCombo => resetCombo
  | NotifyUI => notifyUI
  | GameOver => gameOver
  | ListenScoreChange b => assign (set_onScoreChange b)
  | ListenGameEnd b => assign (set_onGameEnd b)
  end.

(** The world after a sequence of calls; an exception ends the call that
    raised it and the run goes on with the next. *)
Definition run (cs : list Call) (w : World) : World :=
  fold_left (fun w c => exec (call c) w) cs w.

(** The world right after [new GameEngine()]. *)
Definition world0 : World := mkWorld constructor 0 [].

(** The world after the collisions with the items of a list, in order. *)
Definition collisions (its : list Item.t) (w : World) : World :=
  fold_left (fun w it => exec (handleCollision it) w) its w.

End Engine.

(** ** Notions used in the statements *)

(** The calls the page makes while a game is played. *)
Inductive PlayCall :=
| PlayUpdate
| PlaySetPose (poseLabel : string).

Definition play (p : PlayCall) : Call :=
  match p with
  | PlayUpdate => Update
  | PlaySetPose l => SetPose l
  end.

(** The combo is not negative and no item has a negative score. *)
Definition scoring_sound (g : GameEngine) : Prop :=
  0 <= combo g /\ Forall (fun it => 0 <= Item.score it) (items g).

(** An advanced item stays in the list when it neither collides with the
    player nor has left the canvas at the bottom. *)
Definition stays (playerY hitDist h px : float) (item : Item.t) : bool :=
  negb (collides playerY hitDist px item) && negb (h <? Item.y item)%float.

(** The engine after the first two statements of [update]: the player has
    moved towards the target and the spawn timer has ticked. *)
Definition stepped (g : GameEngine) : GameEngine :=
  set_spawnTimer (spawnTimer g + 1)
    (set_playerX (playerX g + (targetX g - playerX g) * 0.4)%float g).

(** The engine after the statements of [update] that follow the item loop,
    which left the items [its']: the particles advance and the two timers
    count down. *)
Definition settled (its' : list Item.t) (g : GameEngine) : GameEngine :=
  let g1 := set_particles (map Particle.update (particles g))
              (set_items its' g) in
  let g2 := if 0 <? shakeTimer g then set_shakeTimer (shakeTimer g - 1) g1
            else g1 in
  if 0 <? flashTimer g then set_flashTimer (flashTimer g - 1) g2 else g2.

(** The level is 1 and every notification made so far reported level 1. *)
Definition level_one (w : World) : Prop :=
  level (this w) = 1 /\ Forall reports_level_1 (effects w).

(** ** Worlds, items and runs for the closed examples *)

(** The page's canvas, 400 by 400. *)
Definition canvas400 : Canvas := mkCanvas 400 400 true.

(** A game just started on it. *)
Definition playing400 : World := exec start (exec (init canvas400) world0).

(** An item as [spawnItem] makes it from entry [i] of [types]. *)
Definition item_of (i : nat) (x y speed : float) : Item.t :=
  let '(id, sc, col, ico) := types i in
  {| Item.x := x; Item.y := y; Item.type := id; Item.score := sc;
     Item.icon := ico; Item.color := col; Item.speed := speed;
     Item.angle := 0%float |}.

Definition an_apple : Item.t := item_of 0 200 333 7.
Definition an_orange : Item.t := item_of 2 200 333 7.

(** [n] bursts in a row, with the active count after each. *)
Fixpoint bursts (n : nat) (w : World) : list nat :=
  match n with
  | O => []
  | S n =>
      let w' :=
        exec (spawnExplosion demo_random demo_cos demo_sin 0 0 "#555") w in
      active_count (particles (this w')) :: bursts n w'
  end.

(** A world for the miss scenario: playing on the 400 by 400 canvas with
    combo 7, the player in the middle, and one item on the left lane about
    to leave the canvas. *)
Definition falling_out : Item.t := item_of 0 66 398 7.

Definition w_miss : World :=
  mkWorld (set_combo 7 (set_items [falling_out] (this playing400))) 0 [].

(** Draws that put every item on the middle lane, make it a bomb, and give
    it speed 6, but for the fourth item, which gets speed 7.5 and so
    catches up with the third. *)
Definition crossing_random (n : nat) : float :=
  match Nat.modulo n 3 with
  | 0%nat => 0.5%float
  | 1%nat => 0.1%float
  | _ => if Nat.eqb n 11 then 0.75%float else 0%float
  end.

Definition tall_canvas : Canvas := mkCanvas 400 1608 true.

(** A session: listeners installed, [init], [start], then [n] frames. *)
Definition session (n : nat) : list Call :=
  [ListenScoreChange true; ListenGameEnd true; Init tall_canvas; Start]
  ++ repeat Update n.

(** How many times the game-end listener has been called. *)
Definition game_ends (w : World) : nat :=
  List.length
    (filter (fun e => match e with OnGameEnd _ _ => true | _ => false end)
       (effects w)).

Definition item_summary (it : Item.t) : ItemType * float * float * float :=
  (Item.type it, Item.x it, Item.y it, Item.speed it).

(** One life left and two bombs over the player, on the 400 by 400
    canvas. *)
Definition a_bomb : Item.t := item_of 4 200 333 7.

Definition w_two_bombs : World :=
  mkWorld
    (set_onGameEnd true
       (set_life 1 (set_items [a_bomb; a_bomb] (this playing400))))
    0 [].

(** The targets after each label of a stream, one [setPose] per label. *)
Fixpoint pose_targets (labels : list string) (w : World) : list float :=
  match labels with
  | [] => []
  | l :: ls =>
      let w' := exec (setPose l) w in
      targetX (this w') :: pose_targets ls w'
  end.

(** The lanes of the lane-discrete engine after each label of a stream. *)
Fixpoint pose_lanes (labels : list string) (g : SimpleEngine.t) : list Z :=
  match labels with
  | [] => []
  | l :: ls =>
      let g' := SimpleEngine.setPose l g in
      SimpleEngine.playerLane g' :: pose_lanes ls g'
  end.

(** ** Notions used in the further properties *)

(** The item [spawnItem] pushes on canvas [c] at base speed [b], from its
    three draws: [r0] for the lane, [r] for the type, [r2] for the speed. *)
Definition new_item (c : Canvas) (b r0 r r2 : float) : Item.t :=
  let lane := Math_floor (r0 * 3)%float in
  let laneWidth := (width c / 3)%float in
  let type :=
    if (r <? 0.2)%float then types 4
    else if (r <? 0.3)%float then types 3
    else if (r <? 0.5)%float then types 2
    else if (r <? 0.7)%float then types 1
    else types 0 in
  let '(id, sc, col, ico) := type in
  {| Item.x := ((lane * laneWidth) + (laneWidth / 2))%float;
     Item.y := (-60)%float; Item.type := id; Item.score := sc;
     Item.icon := ico; Item.color := col;
     Item.speed := (b + r2 * 2)%float; Item.angle := 0%float |}.

(** The type, score, colour and icon of an item are those of an entry of
    [types]. *)
Definition from_table (it : Item.t) : Prop :=
  exists i : nat,
    (i <= 4)%nat
    /\ (Item.type it, Item.score it, Item.color it, Item.icon it) = types i.

(** Whether this frame's [update] spawns an item: the ticked timer has
    passed the interval. *)
Definition spawn_due (g : GameEngine) : bool :=
  spawnInterval g <? spawnTimer g + 1.

(** The world [update] enters its item loop with, on canvas [c]: the
    player has moved and the timer has ticked, and when an item is due it
    has been pushed, from three draws, and the timer restarted. *)
Definition before_loop (Math_random : nat -> float) (c : Canvas) (w : World)
  : World :=
  let g := this w in
  let d := draws w in
  if spawn_due g then
    mkWorld
      (set_spawnTimer 0
         (set_items
            (items g
             ++ [new_item c (baseSpeed g) (Math_random d)
                   (Math_random (S d)) (Math_random (S (S d)))])
            (stepped g)))
      (S (S (S d))) (effects w)
  else mkWorld (stepped g) d (effects w).

(** Life, score, combo and the two timers are within their bounds. *)
Definition vitals_ok (g : GameEngine) : Prop :=
  life g <= 3 /\ 0 <= score g /\ 0 <= combo g
  /\ 0 <= shakeTimer g <= 20 /\ 0 <= flashTimer g <= 5.

(** The fields no frame writes: [g'] has them as [g] has. *)
Definition same_setup (g g' : GameEngine) : Prop :=
  canvas g' = canvas g /\ ctx g' = ctx g /\ level g' = level g
  /\ maxCombo g' = maxCombo g /\ laneCount g' = laneCount g
  /\ playerLane g' = playerLane g /\ targetX g' = targetX g
  /\ spawnInterval g' = spawnInterval g
  /\ onScoreChange g' = onScoreChange g /\ onGameEnd g' = onGameEnd g.

(** The depth of the transform stack after the canvas commands [ops], from
    depth [n]: a [save] pushes, a [restore] pops; [None] when a [restore]
    has no [save] to undo. *)
Fixpoint stack_depth (n : nat) (ops : list CanvasOp) : option nat :=
  match ops with
  | [] => Some n
  | save :: r => stack_depth (S n) r
  | restore :: r =>
      match n with
      | O => None
      | S m => stack_depth m r
      end
  | _ :: r => stack_depth n r
  end.

(** A game started on an engine that was never given a canvas. *)
Definition started_blind : World := exec start world0.

(** The game on the 400 by 400 canvas, with a score-change listener. *)
Definition listening400 : World :=
  mkWorld (set_onScoreChange true (this playing400)) 0 [].

(** The first item of the session on the tall canvas, one frame old. *)
Definition first_spawned : Item.t :=
  advance (new_item tall_canvas 6 0.5 0.1 0).

(** ** Properties of the engine, for any host *)

Section Properties.

Variable Math_random : nat -> float.
Variables Math_cos Math_sin : float -> float.

Local Abbreviation random := (random Math_random).
Local Abbreviation Particle_spawn :=
  (Particle_spawn Math_random Math_cos Math_sin).
Local Abbreviation spawnExplosion_loop :=
  (spawnExplosion_loop Math_random Math_cos Math_sin).
Local Abbreviation spawnExplosion :=
  (spawnExplosion Math_random Math_cos Math_sin).
Local Abbreviation handleCollision :=
  (handleCollision Math_random Math_cos Math_sin).
Local Abbreviation spawnItem := (spawnItem Math_random).
Local Abbreviation update_items :=
  (update_items Math_random Math_cos Math_sin).
Local Abbreviation update := (update Math_random Math_cos Math_sin).
Local Abbreviation draw := (draw Math_random).
Local Abbreviation call := (call Math_random Math_cos Math_sin).
Local Abbreviation run := (run Math_random Math_cos Math_sin).
Local Abbreviation collisions :=
  (collisions Math_random Math_cos Math_sin).
Local Abbreviation before_loop := (before_loop Math_random).

(** ** Reasoning about computations *)

Unset Implicit Arguments.

#[local] Arguments Z.add : simpl never.
#[local] Arguments Z.sub : simpl never.
#[local] Arguments Z.opp : simpl never.
#[local] Arguments Z.mul : simpl never.
#[local] Arguments Z.div : simpl never.
#[local] Arguments Z.rem : simpl never.
#[local] Arguments Z.leb : simpl never.
#[local] Arguments Z.ltb : simpl never.
#[local] Arguments Z.geb : simpl never.
#[local] Arguments Z.to_nat : simpl never.
#[local] Arguments active_count : simpl never.
#[local] Arguments inactive_count : simpl never.

Lemma bind_normal {A B} (m : M A) (k : A -> M B) (w w' : World) (a : A) :
  m w = (Normal a, w') -> bind m k w = k a w'.
Proof. intros E. unfold bind. now rewrite E. Qed.

Lemma bind_ret {A B} (a : A) (k : A -> M B) (w : World) :
  bind (ret a) k w = k a w.
Proof. reflexivity. Qed.

Lemma bind_get {A B} (f : GameEngine -> A) (k : A -> M B) (w : World) :
  bind (get f) k w = k (f (this w)) w.
Proof. reflexivity. Qed.

Lemma bind_assign {B} (f : GameEngine -> GameEngine) (k : unit -> M B)
    (w : World) :
  bind (assign f) k w = k tt (mkWorld (f (this w)) (draws w) (effects w)).
Proof. reflexivity. Qed.

Lemma bind_emit {B} (e : Effect) (k : unit -> M B) (w : World) :
  bind (emit e) k w = k tt (mkWorld (this w) (draws w) (effects w ++ [e])).
Proof. reflexivity. Qed.

Lemma bind_draw_ops {B} (ops : list CanvasOp) (k : unit -> M B) (w : World) :
  bind (draw_ops ops) k w
  = k tt (mkWorld (this w) (draws w) (effects w ++ map Draw ops)).
Proof. reflexivity. Qed.

Lemma bind_random {B} (k : float -> M B) (w : World) :
  bind random k w
  = k (Math_random (draws w)) (mkWorld (this w) (S (draws w)) (effects w)).
Proof. reflexivity. Qed.

Lemma bind_throw {A B} (k : A -> M B) (w : World) :
  bind throw k w = (TypeError, w).
Proof. reflexivity. Qed.

Lemma bind_bind {A B C} (m : M A) (k1 : A -> M B) (k2 : B -> M C)
    (w : World) :
  bind (bind m k1) k2 w = bind m (fun a => bind (k1 a) k2) w.
Proof. unfold bind. destruct (m w) as [[a|] w']; reflexivity. Qed.

Lemma bind_theCanvas {B} (k : Canvas -> M B) (w : World) :
  bind theCanvas k w
  = match canvas (this w) with
    | Some c => k c w
    | None => (TypeError, w)
    end.
Proof. unfold theCanvas, bind, get. cbn. now destruct (canvas (this w)). Qed.

Lemma as_bind {A} (m : M A) (w : World) : m w = bind m ret w.
Proof. unfold bind, ret. destruct (m w) as [[a|] w']; reflexivity. Qed.

(** Projections of worlds and of engines after field assignments. *)
Ltac fields :=
  cbn [this draws effects
       ctx canvas state score life level combo maxCombo items laneCount
       playerLane playerX targetX shakeTimer flashTimer baseSpeed spawnTimer
       spawnInterval particles onScoreChange onGameEnd
       set_ctx set_canvas set_state set_score set_life set_level set_combo
       set_items set_playerX set_targetX set_shakeTimer set_flashTimer
       set_baseSpeed set_spawnTimer set_particles set_onScoreChange
       set_onGameEnd] in *.

(** The same, with every field assignment carried out. *)
Ltac assigned :=
  cbv beta iota delta
      [this draws effects
       ctx canvas state score life level combo maxCombo items laneCount
       playerLane playerX targetX shakeTimer flashTimer baseSpeed spawnTimer
       spawnInterval particles onScoreChange onGameEnd
       set_ctx set_canvas set_state set_score set_life set_level set_combo
       set_items set_playerX set_targetX set_shakeTimer set_flashTimer
       set_baseSpeed set_spawnTimer set_particles set_onScoreChange
       set_onGameEnd].

(** One step of symbolic execution of the computation in the goal. *)
Ltac mstep :=
  match goal with
  | |- context [bind (bind _ _) _ _] => rewrite bind_bind
  | |- context [bind (ret _) _ _] => rewrite bind_ret
  | |- context [bind (get _) _ _] => rewrite bind_get
  | |- context [bind (assign _) _ _] => rewrite bind_assign
  | |- context [bind (emit _) _ _] => rewrite bind_emit
  | |- context [bind (draw_ops _) _ _] => rewrite bind_draw_ops
  | |- context [bind random _ _] => rewrite bind_random
  | |- context [bind throw _ _] => rewrite bind_throw
  | |- context [bind theCanvas _ ?w] =>
      rewrite bind_theCanvas; fields;
      first
        [ match goal with
          | H : canvas ?g = _
            |- context [match canvas ?g with Some _ => _ | None => _ end] =>
              rewrite H
          end
        | match goal with
          | |- context [match canvas ?g with Some _ => _ | None => _ end] =>
              destruct (canvas g) eqn:?
          end ]
  | |- context [bind (when ?b _) _ _] => unfold when at 1
  | |- context [bind (if ?b then _ else _) _ _] => destruct b eqn:?
  end; cbv beta; fields.

(** *** The notifications *)

Lemma notifyUI_eq (w : World) :
  notifyUI w
  = (Normal tt,
     mkWorld (this w) (draws w)
       (effects w ++
        if onScoreChange (this w)
        then [OnScoreChange (score (this w)) (life (this w))
                (level (this w)) (combo (this w))]
        else [])).
Proof.
  rewrite as_bind. unfold notifyUI. fields; repeat mstep; unfold ret.
  - reflexivity.
  - rewrite app_nil_r. now destruct w.
Qed.

Lemma gameOver_eq (w : World) :
  gameOver w
  = (Normal tt,
     mkWorld (set_state GAME_OVER (this w)) (draws w)
       (effects w ++
        if onGameEnd (this w)
        then [OnGameEnd (score (this w)) (level (this w))]
        else [])).
Proof.
  rewrite as_bind. unfold gameOver. fields; repeat mstep; unfold ret; cbn.
  - reflexivity.
  - now rewrite app_nil_r.
Qed.

Lemma resetCombo_eq (w : World) :
  resetCombo w
  = (Normal tt,
     mkWorld (set_combo 0 (this w)) (draws w)
       (effects w ++
        if onScoreChange (this w)
        then [OnScoreChange (score (this w)) (life (this w))
                (level (this w)) 0]
        else [])).
Proof.
  unfold resetCombo. rewrite bind_assign, notifyUI_eq. reflexivity.
Qed.

(** ** The particle pool *)

Lemma active_inactive_count (ps : list Particle.t) :
  (active_count ps + inactive_count ps = List.length ps)%nat.
Proof.
  unfold active_count, inactive_count.
  induction ps as [|p ps IH]; simpl; [reflexivity|].
  destruct (Particle.active p); simpl; lia.
Qed.

Lemma active_count_le_length (ps : list Particle.t) :
  (active_count ps <= List.length ps)%nat.
Proof. pose proof (active_inactive_count ps). lia. Qed.

Lemma active_count_cons (p : Particle.t) (ps : list Particle.t) :
  active_count (p :: ps)
  = ((if Particle.active p then 1 else 0) + active_count ps)%nat.
Proof. unfold active_count. simpl. now destruct (Particle.active p). Qed.

Lemma inactive_count_cons (p : Particle.t) (ps : list Particle.t) :
  inactive_count (p :: ps)
  = ((if Particle.active p then 0 else 1) + inactive_count ps)%nat.
Proof. unfold inactive_count. simpl. now destruct (Particle.active p). Qed.

(** The loop of [spawnExplosion] always completes; it draws random numbers
    and touches neither the engine nor the effects; the pool keeps its
    length, and the slots it activates are the first inactive ones, as many
    as the cap of 15 still allows. *)
Lemma spawnExplosion_loop_spec (x y : float) (color : string)
    (ps : list Particle.t) :
  forall (count : Z) (w : World), count < 15 ->
  exists ps' d,
    spawnExplosion_loop x y color count ps w
      = (Normal ps', mkWorld (this w) d (effects w))
    /\ List.length ps' = List.length ps
    /\ active_count ps'
       = (active_count ps
          + Nat.min (Z.to_nat (15 - count)) (inactive_count ps))%nat.
Proof.
  induction ps as [|p ps IH]; intros count w Hc.
  - exists [], (draws w). destruct w. cbn.
    repeat split. unfold active_count, inactive_count. cbn. lia.
  - cbn. destruct (Particle.active p) eqn:Ha; cbn.
    + destruct (IH count w Hc) as (ps' & d & E & L & C).
      exists (p :: ps'), d. rewrite (bind_normal _ _ _ _ _ E).
      rewrite !active_count_cons, inactive_count_cons, Ha.
      cbn. repeat split; lia.
    + unfold Particle_spawn, random. cbn.
      destruct (count + 1 >=? 15) eqn:Hb.
      * eexists _, _. split; [reflexivity|].
        rewrite !active_count_cons, inactive_count_cons, Ha. cbn.
        split; [reflexivity|]. lia.
      * set (w1 := mkWorld _ _ _).
        destruct (IH (count + 1) w1) as (ps' & d & E & L & C); [lia|].
        rewrite (bind_normal _ _ _ _ _ E).
        eexists _, _. split; [reflexivity|].
        rewrite !active_count_cons, inactive_count_cons, Ha. cbn.
        split; [lia|]. rewrite C. lia.
Qed.

(** [spawnExplosion] completes, and changes the pool and the number of
    draws only. *)
Lemma spawnExplosion_spec (x y : float) (color : string) (w : World) :
  exists ps' d,
    spawnExplosion x y color w
      = (Normal tt, mkWorld (set_particles ps' (this w)) d (effects w))
    /\ List.length ps' = List.length (particles (this w))
    /\ active_count ps'
       = (active_count (particles (this w))
          + Nat.min 15 (inactive_count (particles (this w))))%nat.
Proof.
  destruct (spawnExplosion_loop_spec x y color (particles (this w)) 0 w)
    as (ps' & d & E & L & C); [lia|].
  exists ps', d. unfold spawnExplosion. cbn. rewrite (bind_normal _ _ _ _ _ E).
  repeat split; assumption.
Qed.

(** The loop leaves the active particles as they are. *)
Lemma spawnExplosion_loop_keeps (x y : float) (color : string)
    (ps : list Particle.t) :
  forall (count : Z) (w : World) (ps' : list Particle.t) (w' : World),
    count < 15 ->
    spawnExplosion_loop x y color count ps w = (Normal ps', w') ->
    Forall2 (fun p p' => Particle.active p = true -> p' = p) ps ps'.
Proof.
  induction ps as [|p ps IH]; intros count w ps' w' Hc E.
  - cbn in E. injection E as <- _. constructor.
  - cbn [spawnExplosion_loop] in E.
    destruct (Particle.active p) eqn:Ha; cbn [negb] in E.
    + destruct (spawnExplosion_loop_spec x y color ps count w Hc)
        as (ps1 & d & E1 & _).
      rewrite (bind_normal _ _ _ _ _ E1) in E. injection E as <- _.
      constructor; [reflexivity|]. eapply IH; eassumption.
    + unfold Particle_spawn, random in E. cbn in E.
      destruct (count + 1 >=? 15) eqn:Hb.
      * injection E as <- _. constructor; [congruence|].
        clear. induction ps; constructor; auto.
      * match type of E with bind _ _ ?w1 = _ => set (w1' := w1) in * end.
        destruct (spawnExplosion_loop_spec x y color ps (count + 1) w1')
          as (ps1 & d & E1 & _); [lia|].
        rewrite (bind_normal _ _ _ _ _ E1) in E. injection E as <- _.
        constructor; [congruence|]. eapply IH; [|eassumption]. lia.
Qed.

Lemma spawnExplosion_keeps (x y : float) (color : string) (w : World) :
  Forall2 (fun p p' => Particle.active p = true -> p' = p)
    (particles (this w))
    (particles (this (exec (spawnExplosion x y color) w))).
Proof.
  destruct (spawnExplosion_loop_spec x y color (particles (this w)) 0 w)
    as (ps' & d & E & _); [lia|].
  unfold exec, spawnExplosion. rewrite bind_get.
  rewrite (bind_normal _ _ _ _ _ E). cbn.
  eapply spawnExplosion_loop_keeps; [|exact E]. lia.
Qed.

(** Steps through the methods whose effect is known in closed form. *)
Ltac mcall :=
  match goal with
  | |- context [bind notifyUI ?k ?w] =>
      rewrite (bind_normal notifyUI k w _ _ (notifyUI_eq w))
  | |- context [bind resetCombo ?k ?w] =>
      rewrite (bind_normal resetCombo k w _ _ (resetCombo_eq w))
  | |- context [bind gameOver ?k ?w] =>
      rewrite (bind_normal gameOver k w _ _ (gameOver_eq w))
  | |- context [bind (spawnExplosion ?x ?y ?c) ?k ?w] =>
      let ps := fresh "ps" in
      let d := fresh "d" in
      let E := fresh "E" in
      let L := fresh "L" in
      let C := fresh "C" in
      destruct (spawnExplosion_spec x y c w) as (ps & d & E & L & C);
      rewrite (bind_normal _ k w _ _ E); clear E
  end; cbv beta; fields.

Ltac msteps := fields; repeat first [mstep | mcall].

Ltac mexec := msteps; unfold ret.

(** *** Collisions *)

(** A hazard hit: one life less, the combo broken, the shake timer set, a
    burst spawned, the listener told twice (by [resetCombo], then by
    [handleCollision] itself), and the game ended when no life is left. *)
Lemma handleCollision_bomb (item : Item.t) (w : World) :
  Item.type item = bomb ->
  exists ps' d,
    let g := this w in
    let l := life g - 1 in
    let g1 :=
      set_particles ps' (set_shakeTimer 20 (set_combo 0 (set_life l g))) in
    let note :=
      if onScoreChange g then [OnScoreChange (score g) l (level g) 0]
      else [] in
    handleCollision item w
    = (Normal tt,
       mkWorld (if l <=? 0 then set_state GAME_OVER g1 else g1) d
         (effects w ++ note ++ note ++
          if l <=? 0
          then (if onGameEnd g then [OnGameEnd (score g) (level g)] else [])
          else []))
    /\ List.length ps' = List.length (particles g)
    /\ active_count ps'
       = (active_count (particles g)
          + Nat.min 15 (inactive_count (particles g)))%nat.
Proof.
  intros Hb. rewrite as_bind. unfold handleCollision. rewrite Hb.
  cbn [ItemType_eqb]. mexec; exists ps, d; cbv zeta; fields;
    rewrite ?Heqb; rewrite <- ?app_assoc, ?app_nil_r; auto.
Qed.

(** A scoring hit: the combo grows by one, the score by the item's value
    times the multiplier of the new combo, a burst is spawned, a diamond
    sets the flash timer, the speed ramps when the new score is less than
    200 past a multiple of 1000, and the listener is told once. *)
Lemma handleCollision_fruit (item : Item.t) (w : World) :
  Item.type item <> bomb ->
  exists ps' d,
    let g := this w in
    let c := combo g + 1 in
    let s := score g + Item.score item * (1 + c / 10) in
    let g1 := set_particles ps' (set_score s (set_combo c g)) in
    let g2 :=
      if ItemType_eqb (Item.type item) diamond then set_flashTimer 5 g1
      else g1 in
    let g3 :=
      if Z.rem s 1000 <? 200
      then set_baseSpeed (baseSpeed g + 0.05)%float g2 else g2 in
    handleCollision item w
    = (Normal tt,
       mkWorld (if life g <=? 0 then set_state GAME_OVER g3 else g3) d
         (effects w ++
          (if onScoreChange g
           then [OnScoreChange s (life g) (level g) c] else []) ++
          if life g <=? 0
          then (if onGameEnd g then [OnGameEnd s (level g)] else [])
          else []))
    /\ List.length ps' = List.length (particles g)
    /\ active_count ps'
       = (active_count (particles g)
          + Nat.min 15 (inactive_count (particles g)))%nat.
Proof.
  intros Hb. rewrite as_bind. unfold handleCollision.
  assert (ItemType_eqb (Item.type item) bomb = false) as ->
    by (destruct (Item.type item); cbn; congruence).
  mexec; exists ps, d; cbv zeta; fields;
    rewrite ?Heqb, ?Heqb0, ?Heqb1; rewrite <- ?app_assoc, ?app_nil_r; auto.
Qed.

Lemma handleCollision_normal (item : Item.t) (w : World) :
  handleCollision item w = (Normal tt, exec (handleCollision item) w).
Proof.
  unfold exec.
  destruct (ItemType_eqb (Item.type item) bomb) eqn:Hb.
  - destruct (handleCollision_bomb item w) as (ps' & d & E & _).
    { destruct (Item.type item); cbn in Hb; congruence. }
    cbv zeta in E. now rewrite E.
  - destruct (handleCollision_fruit item w) as (ps' & d & E & _).
    { intros H. rewrite H in Hb. discriminate. }
    cbv zeta in E. now rewrite E.
Qed.

(** Case analysis on a collision: rewrites [exec (handleCollision item) w]
    in the goal to the world of the hazard case, then of the scoring case. *)
Ltac hit_cases item w :=
  let Hb := fresh "Hb" in
  let ps := fresh "ps" in
  let d := fresh "d" in
  let E := fresh "E" in
  let L := fresh "L" in
  let C := fresh "C" in
  unfold exec;
  destruct (ItemType_eqb (Item.type item) bomb) eqn:Hb;
  [ destruct (handleCollision_bomb item w) as (ps & d & E & L & C);
    [ destruct (Item.type item); cbn in Hb; congruence | ]
  | destruct (handleCollision_fruit item w) as (ps & d & E & L & C);
    [ let H := fresh in intros H; rewrite H in Hb; discriminate | ] ];
  cbv zeta in E; rewrite E; clear E; cbn [snd fst]; fields.

(** *** The item loop *)

(** The loop always completes.  It keeps every property of worlds that a
    collision with an item of the list and a combo reset keep, and the items
    it leaves are among the advanced items of the list. *)
Lemma update_items_inv (I : World -> Prop) (playerY hitDist h : float)
    (its : list Item.t) :
  (forall it w, In it its -> I w -> I (exec (handleCollision (advance it)) w)) ->
  (forall w, I w -> I (exec resetCombo w)) ->
  forall w, I w ->
  exists its' w',
    update_items playerY hitDist h its w = (Normal its', w')
    /\ I w'
    /\ incl its' (map advance its).
Proof.
  intros Hhit Hreset.
  induction its as [|it rest IH]; intros w HI.
  - exists [], w. repeat split; [assumption | apply incl_refl].
  - destruct IH with (w := w) as (rest' & w1 & E & HI1 & Hincl).
    { intros it' w' Hin. apply Hhit. now right. }
    { assumption. }
    cbn [update_items]. rewrite (bind_normal _ _ _ _ _ E).
    rewrite bind_get.
    destruct (collides playerY hitDist (playerX (this w1)) (advance it)).
    + rewrite (bind_normal _ _ _ _ _ (handleCollision_normal _ _)).
      eexists _, _. split; [reflexivity|]. split.
      * apply Hhit; [now left | assumption].
      * cbn [map]. now apply incl_tl.
    + destruct (h <? Item.y (advance it))%float.
      * rewrite (bind_normal _ _ _ _ _ (resetCombo_eq _)).
        eexists _, _. split; [reflexivity|]. split.
        -- specialize (Hreset w1 HI1). unfold exec in Hreset.
           now rewrite resetCombo_eq in Hreset.
        -- cbn [map]. now apply incl_tl.
      * eexists _, _. split; [reflexivity|]. split; [assumption|].
        cbn [map]. apply incl_cons; [now left | now apply incl_tl].
Qed.

(** *** Spawning an item *)

(** [spawnItem] appends one item, whose score is not negative, and makes
    three draws; without a canvas it raises after its first draw. *)
Lemma spawnItem_spec (w : World) :
  (exists it,
     spawnItem w
     = (Normal tt,
        mkWorld (set_items (items (this w) ++ [it]) (this w))
          (S (S (S (draws w)))) (effects w))
     /\ 0 <= Item.score it
     /\ canvas (this w) <> None)
  \/ (canvas (this w) = None
      /\ spawnItem w
         = (TypeError, mkWorld (this w) (S (draws w)) (effects w))).
Proof.
  rewrite as_bind. unfold spawnItem. msteps.
  - left.
    repeat match goal with |- context [if ?b then _ else _] => destruct b end;
      cbn [types]; mexec; (eexists; split; [reflexivity|]);
      (split; [cbn; lia | congruence]).
  - right. split; reflexivity.
Qed.

(** Steps through [spawnItem]: an appended item [it], or the exception. *)
Ltac mspawn :=
  match goal with
  | |- context [bind spawnItem ?k ?w] =>
      let it := fresh "it" in
      let E := fresh "E" in
      let Hit := fresh "Hit" in
      let Hc := fresh "Hc" in
      destruct (spawnItem_spec w) as [(it & E & Hit & Hc) | (Hc & E)];
      [ rewrite (bind_normal _ k w _ _ E)
      | unfold bind at 1; rewrite E ];
      clear E; cbv beta; fields
  end.

(** *** The frame update *)

Lemma update_idle (w : World) :
  state (this w) <> PLAYING -> update w = (Normal tt, w).
Proof.
  intros H. rewrite as_bind. unfold update. mstep. mstep.
  destruct (state (this w)); cbn; try reflexivity. congruence.
Qed.

(** [update] while playing.  Without a canvas it raises, having moved the
    player and ticked the spawn timer.  With one, it spawns an item when the
    timer has run out, runs the item loop, and settles. *)
Lemma update_playing (w : World) :
  state (this w) = PLAYING ->
  (canvas (this w) = None
   /\ exists d,
        update w = (TypeError, mkWorld (stepped (this w)) d (effects w)))
  \/ (exists c g1 d1 its' w2,
        canvas (this w) = Some c
        /\ (g1 = stepped (this w)
            \/ exists it,
                 0 <= Item.score it
                 /\ g1 = set_spawnTimer 0
                           (set_items (items (this w) ++ [it])
                              (stepped (this w))))
        /\ update_items (height c * 0.85)%float 50%float (height c)
             (items g1) (mkWorld g1 d1 (effects w))
           = (Normal its', w2)
        /\ update w
           = (Normal tt,
              mkWorld (settled its' (this w2)) (draws w2) (effects w2))).
Proof.
  intros HP. destruct (canvas (this w)) as [c|] eqn:Hc; [right | left].
  - rewrite as_bind. unfold update. mstep. mstep. rewrite HP.
    cbn [GameState_eqb negb].
    fields; repeat first [mstep | mspawn]; try congruence.
    all: match goal with |- context [bind (update_items ?a ?b ?c ?l) ?k ?w0] =>
        destruct (update_items_inv (fun _ => True) a b c l) with (w := w0)
          as (its' & w2 & E & _ & _); [easy | easy | easy |];
        rewrite (bind_normal _ k w0 _ _ E); cbv beta
      end;
      eexists c, _, _, its', w2;
      (split; [reflexivity|]);
      (split; [|split; [exact E|]]);
      [ first [ now left
              | right; eexists; split; [eassumption | reflexivity] ]
      | unfold settled; mexec; reflexivity ].
  - split; [reflexivity|].
    rewrite as_bind. unfold update. mstep. mstep. rewrite HP.
    cbn [GameState_eqb negb].
    fields; repeat first [mstep | mspawn]; try congruence;
      eexists; reflexivity.
Qed.

(** *** The pool keeps its length *)

Lemma handleCollision_pool_length (item : Item.t) (w : World) :
  List.length (particles (this (exec (handleCollision item) w)))
  = List.length (particles (this w)).
Proof.
  hit_cases item w.
  - destruct (life (this w) - 1 <=? 0); fields; assumption.
  - repeat match goal with |- context [if ?b then _ else _] =>
      destruct b; fields end; assumption.
Qed.

Lemma update_items_pool_length (playerY hitDist h : float)
    (its : list Item.t) (w : World) :
  exists its' w',
    update_items playerY hitDist h its w = (Normal its', w')
    /\ List.length (particles (this w')) = List.length (particles (this w)).
Proof.
  destruct (update_items_inv
              (fun w' => List.length (particles (this w'))
                         = List.length (particles (this w)))
              playerY hitDist h its) with (w := w)
    as (its' & w' & E & H & _).
  - intros it w0 _ H0. now rewrite handleCollision_pool_length.
  - intros w0 H0. unfold exec. now rewrite resetCombo_eq.
  - reflexivity.
  - now exists its', w'.
Qed.

Lemma settled_pool_length (its' : list Item.t) (g : GameEngine) :
  List.length (particles (settled its' g)) = List.length (particles g).
Proof.
  unfold settled.
  destruct (0 <? shakeTimer g), (0 <? flashTimer g); fields;
    apply length_map.
Qed.

Lemma update_pool_length (w : World) :
  List.length (particles (this (exec update w)))
  = List.length (particles (this w)).
Proof.
  unfold exec.
  destruct (state (this w)) eqn:Hs;
    try (rewrite update_idle by congruence; reflexivity).
  destruct (update_playing w Hs)
    as [(_ & d & E) | (c & g1 & d1 & its' & w2 & _ & Hg1 & Eloop & E)];
    rewrite E; cbn [snd]; fields; [reflexivity|].
  rewrite settled_pool_length.
  destruct (update_items_pool_length (height c * 0.85)%float 50%float
              (height c) (items g1) (mkWorld g1 d1 (effects w)))
    as (its'' & w'' & E' & H).
  rewrite Eloop in E'. injection E' as <- <-. rewrite H. fields.
  destruct Hg1 as [-> | (it & _ & ->)]; reflexivity.
Qed.

Lemma draw_this (w : World) : this (exec draw w) = this w.
Proof.
  unfold exec. rewrite as_bind. unfold draw. mexec; reflexivity.
Qed.

(** No call changes the length of the pool. *)
Lemma call_pool_length (c : Call) (w : World) :
  List.length (particles (this (exec (call c) w)))
  = List.length (particles (this w)).
Proof.
  destruct c; cbn [call].
  - unfold exec. rewrite as_bind. unfold init. mexec. reflexivity.
  - unfold exec. rewrite as_bind. unfold start. mexec. apply length_map.
  - unfold exec. rewrite as_bind. unfold setPose. mexec; reflexivity.
  - apply update_pool_length.
  - now rewrite draw_this.
  - unfold exec. destruct (spawnExplosion_spec x y color w)
      as (ps' & d & E & L & _). rewrite E. exact L.
  - unfold exec.
    destruct (spawnItem_spec w) as [(it & E & _) | (_ & E)];
      rewrite E; reflexivity.
  - unfold exec. now rewrite resetCombo_eq.
  - unfold exec. now rewrite notifyUI_eq.
  - unfold exec. now rewrite gameOver_eq.
  - reflexivity.
  - reflexivity.
Qed.

Lemma run_app (cs1 cs2 : list Call) (w : World) :
  run (cs1 ++ cs2) w = run cs2 (run cs1 w).
Proof. unfold run. apply fold_left_app. Qed.

Lemma run_pool_length (cs : list Call) (w : World) :
  List.length (particles (this (run cs w)))
  = List.length (particles (this w)).
Proof.
  revert w. induction cs as [|c cs IH]; intros w; [reflexivity|].
  cbn [run fold_left]. fold (run cs (exec (call c) w)).
  now rewrite IH, call_pool_length.
Qed.

(** C7: the pool has 100 slots from construction on and no call changes
    its length, from whatever world it is made; so after any sequence of
    calls on a new engine the pool still has its 100 slots and at most 100
    of them are active. *)
Theorem particle_pool_fixed (cs : list Call) :
  List.length (particles constructor) = 100%nat
  /\ (forall (c : Call) (w : World),
        List.length (particles (this (exec (call c) w)))
        = List.length (particles (this w)))
  /\ List.length (particles (this (run cs world0))) = 100%nat
  /\ (active_count (particles (this (run cs world0))) <= 100)%nat.
Proof.
  assert (List.length (particles (this (run cs world0))) = 100%nat) as H.
  { rewrite run_pool_length. reflexivity. }
  split; [reflexivity|].
  split; [apply call_pool_length|].
  split; [exact H|].
  rewrite <- H. apply active_count_le_length.
Qed.

(** *** The level *)

Lemma draw_ops_report_nothing (ops : list CanvasOp) :
  Forall reports_level_1 (map Draw ops).
Proof. induction ops; cbn [map]; constructor; [exact I | assumption]. Qed.

(** Closes goals of the form [Forall reports_level_1 (old ++ new ...)]. *)
Ltac level_effects :=
  repeat match goal with
         | |- Forall _ (_ ++ _) => apply Forall_app; split
         | |- Forall _ (if ?b then _ else _) => destruct b
         | |- Forall _ (map Draw _) => apply draw_ops_report_nothing
         | |- Forall _ [] => constructor
         | |- Forall _ (_ :: _) => constructor
         end;
  try assumption; try exact I; try (cbn; congruence).

Lemma handleCollision_level_one (item : Item.t) (w : World) :
  level_one w -> level_one (exec (handleCollision item) w).
Proof.
  intros [Hl He]. unfold level_one. hit_cases item w.
  - split.
    + destruct (life (this w) - 1 <=? 0); fields; assumption.
    + level_effects.
  - split.
    + repeat match goal with |- context [if ?b then _ else _] =>
        destruct b; fields end; assumption.
    + level_effects.
Qed.

Lemma resetCombo_level_one (w : World) :
  level_one w -> level_one (exec resetCombo w).
Proof.
  intros [Hl He]. unfold level_one, exec. rewrite resetCombo_eq.
  cbn [snd]; fields. split; [assumption | level_effects].
Qed.

Lemma settled_level (its' : list Item.t) (g : GameEngine) :
  level (settled its' g) = level g.
Proof.
  unfold settled.
  destruct (0 <? shakeTimer g), (0 <? flashTimer g); reflexivity.
Qed.

Lemma update_level_one (w : World) :
  level_one w -> level_one (exec update w).
Proof.
  intros [Hl He]. unfold exec.
  destruct (state (this w)) eqn:Hs;
    try (rewrite update_idle by congruence; now split).
  destruct (update_playing w Hs)
    as [(_ & d & E) | (c & g1 & d1 & its' & w2 & _ & Hg1 & Eloop & E)];
    rewrite E; cbn [snd]; [now split|].
  destruct (update_items_inv level_one (height c * 0.85)%float 50%float
              (height c) (items g1)) with (w := mkWorld g1 d1 (effects w))
    as (its'' & w'' & E' & [Hl2 He2] & _).
  - intros it w0 _. apply handleCollision_level_one.
  - apply resetCombo_level_one.
  - split; fields; [|assumption].
    destruct Hg1 as [-> | (it & _ & ->)]; assumption.
  - rewrite Eloop in E'. injection E' as <- <-.
    split; fields; [now rewrite settled_level | assumption].
Qed.

Lemma call_level_one (c : Call) (w : World) :
  level_one w -> level_one (exec (call c) w).
Proof.
  intros [Hl He]. destruct c; cbn [call].
  - unfold exec. rewrite as_bind. unfold init. mexec. now split.
  - unfold exec. rewrite as_bind. unfold start. mexec.
    split; cbn [snd]; fields; [reflexivity | level_effects].
  - unfold exec. rewrite as_bind. unfold setPose. mexec; now split.
  - now apply update_level_one.
  - unfold exec. rewrite as_bind. unfold draw.
    mexec; (split; cbn [snd]; fields; [assumption | level_effects]).
  - unfold exec. destruct (spawnExplosion_spec x y color w)
      as (ps' & d & E & _). rewrite E. now split.
  - unfold exec.
    destruct (spawnItem_spec w) as [(it & E & _) | (_ & E)];
      rewrite E; now split.
  - now apply resetCombo_level_one.
  - unfold exec. rewrite notifyUI_eq.
    split; cbn [snd]; fields; [assumption | level_effects].
  - unfold exec. rewrite gameOver_eq.
    split; cbn [snd]; fields; [assumption | level_effects].
  - now split.
  - now split.
Qed.

(** C10: after any sequence of calls on a new engine the level is 1, and
    every score-change and game-end notification made along the way
    reported level 1. *)
Theorem level_never_changes (cs : list Call) :
  level (this (run cs world0)) = 1
  /\ (forall e l,
        In e (effects (run cs world0)) -> reported_level e = Some l -> l = 1).
Proof.
  assert (level_one (run cs world0)) as [Hl He].
  { assert (level_one world0) as H0 by (split; [reflexivity | constructor]).
    revert H0. generalize world0.
    induction cs as [|c cs IH]; intros w Hw; [exact Hw|].
    cbn [run fold_left]. apply IH. now apply call_level_one. }
  split; [exact Hl|].
  intros e l Hin Hr. rewrite Forall_forall in He.
  specialize (He e Hin). unfold reports_level_1 in He.
  now rewrite Hr in He.
Qed.

(** *** The score *)

Lemma handleCollision_score (item : Item.t) (w : World) (s0 : Z) :
  0 <= Item.score item ->
  0 <= combo (this w) /\ s0 <= score (this w) ->
  0 <= combo (this (exec (handleCollision item) w))
  /\ s0 <= score (this (exec (handleCollision item) w)).
Proof.
  intros Hs [Hc H0]. hit_cases item w.
  - destruct (life (this w) - 1 <=? 0); fields; lia.
  - assert (0 <= (combo (this w) + 1) / 10) by (apply Z.div_pos; lia).
    repeat match goal with |- context [if ?b then _ else _] =>
      destruct b; fields end; nia.
Qed.

Lemma settled_scoring (its' : list Item.t) (g : GameEngine) :
  combo (settled its' g) = combo g
  /\ score (settled its' g) = score g
  /\ items (settled its' g) = its'.
Proof.
  unfold settled.
  destruct (0 <? shakeTimer g), (0 <? flashTimer g); repeat split.
Qed.

Lemma update_score (w : World) :
  scoring_sound (this w) ->
  scoring_sound (this (exec update w))
  /\ score (this w) <= score (this (exec update w)).
Proof.
  intros [Hc Hi]. unfold exec.
  destruct (state (this w)) eqn:Hs;
    try (rewrite update_idle by congruence; cbn [snd]; repeat split;
         (assumption || lia)).
  destruct (update_playing w Hs)
    as [(_ & d & E) | (c & g1 & d1 & its' & w2 & _ & Hg1 & Eloop & E)];
    rewrite E; cbn [snd]; fields.
  { unfold scoring_sound, stepped; fields. repeat split; (assumption || lia). }
  assert (0 <= combo g1 /\ score g1 = score (this w)
          /\ Forall (fun it => 0 <= Item.score it) (items g1))
    as (Hc1 & Hs1 & Hi1).
  { destruct Hg1 as [-> | (it & Hit & ->)]; unfold stepped; fields;
      repeat split; try assumption.
    apply Forall_app. split; [assumption | now constructor]. }
  destruct (update_items_inv
              (fun w' => 0 <= combo (this w')
                         /\ score (this w) <= score (this w'))
              (height c * 0.85)%float 50%float (height c) (items g1))
    with (w := mkWorld g1 d1 (effects w))
    as (its'' & w'' & E' & [Hc2 Hs2] & Hincl).
  - intros it w0 Hin. apply handleCollision_score.
    change (0 <= Item.score it).
    rewrite Forall_forall in Hi1. now apply Hi1.
  - intros w0 [H1 H2]. unfold exec. rewrite resetCombo_eq.
    cbn [snd]; fields. lia.
  - fields. lia.
  - rewrite Eloop in E'. injection E' as <- <-.
    unfold scoring_sound.
    destruct (settled_scoring its' (this w2)) as (-> & -> & ->).
    repeat split; try assumption.
    rewrite Forall_forall. intros it Hin.
    apply Hincl, in_map_iff in Hin. destruct Hin as (it0 & <- & Hin0).
    change (0 <= Item.score it0).
    rewrite Forall_forall in Hi1. now apply Hi1.
Qed.

Lemma setPose_this (poseLabel : string) (w : World) :
  score (this (exec (setPose poseLabel) w)) = score (this w)
  /\ combo (this (exec (setPose poseLabel) w)) = combo (this w)
  /\ items (this (exec (setPose poseLabel) w)) = items (this w).
Proof.
  unfold exec. rewrite as_bind. unfold setPose. mexec; repeat split.
Qed.

(** Every call keeps the scoring data sound. *)
Lemma call_scoring_sound (c : Call) (w : World) :
  scoring_sound (this w) -> scoring_sound (this (exec (call c) w)).
Proof.
  intros H. pose proof H as [Hc Hi]. destruct c; cbn [call].
  - unfold exec. rewrite as_bind. unfold init. mexec. exact H.
  - unfold exec. rewrite as_bind. unfold start. mexec.
    unfold scoring_sound. cbn [snd]; fields. split; [lia | constructor].
  - destruct (setPose_this poseLabel w) as (_ & Ec & Ei).
    unfold scoring_sound. now rewrite Ec, Ei.
  - now apply update_score.
  - now rewrite draw_this.
  - unfold exec. destruct (spawnExplosion_spec x y color w)
      as (ps' & d & E & _). rewrite E. exact H.
  - unfold exec.
    destruct (spawnItem_spec w) as [(it & E & Hit & _) | (_ & E)];
      rewrite E; [|exact H].
    unfold scoring_sound. cbn [snd]; fields. split; [assumption|].
    apply Forall_app. split; [assumption | now constructor].
  - unfold exec. rewrite resetCombo_eq.
    unfold scoring_sound. cbn [snd]; fields. split; [lia | assumption].
  - unfold exec. now rewrite notifyUI_eq.
  - unfold exec. now rewrite gameOver_eq.
  - exact H.
  - exact H.
Qed.

Lemma run_scoring_sound (cs : list Call) (w : World) :
  scoring_sound (this w) -> scoring_sound (this (run cs w)).
Proof.
  revert w. induction cs as [|c cs IH]; intros w H; [exact H|].
  cbn [run fold_left]. apply IH. now apply call_scoring_sound.
Qed.

(** From a world with sound scoring data, a sequence of [update] and
    [setPose] calls never lowers the score. *)
Lemma play_score_le (ps : list PlayCall) (w : World) :
  scoring_sound (this w) ->
  score (this w) <= score (this (run (map play ps) w)).
Proof.
  revert w. induction ps as [|p ps IH]; intros w H; [cbn; lia|].
  cbn [map run fold_left].
  fold (run (map play ps) (exec (call (play p)) w)).
  etransitivity; [|apply IH; now apply call_scoring_sound].
  destruct p; cbn [play call].
  - now apply update_score.
  - destruct (setPose_this poseLabel w) as (-> & _). lia.
Qed.

(** C6: on an engine driven by any sequence of calls [cs], the score never
    decreases along a further sequence of [update] and [setPose] calls: the
    score after a prefix [ps1] of them is at most the score after any
    longer run [ps1 ++ ps2]. *)
Theorem score_never_decreases (cs : list Call) (ps1 ps2 : list PlayCall) :
  score (this (run (cs ++ map play ps1) world0))
  <= score (this (run (cs ++ map play (ps1 ++ ps2)) world0)).
Proof.
  rewrite map_app, app_assoc, (run_app (cs ++ map play ps1)).
  apply play_score_le, run_scoring_sound.
  split; [cbn; lia | constructor].
Qed.

(** *** Starting a game *)

Lemma start_eq (w : World) :
  start w
  = (Normal tt,
     mkWorld
       (set_particles (map Particle.deactivate (particles (this w)))
          (set_baseSpeed 6.0%float
             (set_items []
                (set_combo 0
                   (set_level 1
                      (set_life 3 (set_score 0 (set_state PLAYING (this w)))))))))
       (draws w)
       (effects w ++
        ConsoleLog "Game V4 Started"
        :: (if onScoreChange (this w) then [OnScoreChange 0 3 1 0] else []))).
Proof.
  rewrite as_bind. unfold start. mexec.
  rewrite <- app_assoc. reflexivity.
Qed.

Lemma deactivate_all_twice (ps : list Particle.t) :
  map Particle.deactivate (map Particle.deactivate ps)
  = map Particle.deactivate ps.
Proof. rewrite map_map. apply map_ext. reflexivity. Qed.

(** C8: [start()] always completes; the engine after two calls in a row is
    the engine after one; a call leaves the state PLAYING, score 0, life 3,
    level 1, combo 0, no item, every particle inactive and the base speed
    6.0; and its effects are the console line and, when a score-change
    listener is installed, exactly one notification, of the reset values. *)
Theorem start_idempotent (w : World) :
  fst (start w) = Normal tt
  /\ this (exec start (exec start w)) = this (exec start w)
  /\ (let g := this (exec start w) in
      state g = PLAYING /\ score g = 0 /\ life g = 3 /\ level g = 1
      /\ combo g = 0 /\ items g = [] /\ baseSpeed g = 6.0%float
      /\ Forall (fun p => Particle.active p = false) (particles g))
  /\ effects (exec start w)
     = (effects w ++
        ConsoleLog "Game V4 Started"
        :: (if onScoreChange (this w) then [OnScoreChange 0 3 1 0] else []))%list.
Proof.
  unfold exec. rewrite !start_eq. cbn [fst snd]; fields.
  split; [reflexivity|]. split; [|split; [|reflexivity]].
  - assigned. rewrite deactivate_all_twice. reflexivity.
  - cbv zeta; fields. repeat split.
    rewrite Forall_forall. intros p Hin.
    apply in_map_iff in Hin. now destruct Hin as (p0 & <- & _).
Qed.

(** *** Combo and multiplier *)

Lemma ItemType_eqb_eq (a b : ItemType) : ItemType_eqb a b = true <-> a = b.
Proof. destruct a, b; cbn; split; congruence. Qed.

Lemma handleCollision_scoring (item : Item.t) (w : World) :
  Item.type item <> bomb ->
  let w' := exec (handleCollision item) w in
  let c := combo (this w) + 1 in
  let s := score (this w) + Item.score item * (1 + c / 10) in
  combo (this w') = c
  /\ score (this w') = s
  /\ life (this w') = life (this w)
  /\ baseSpeed (this w')
     = if Z.rem s 1000 <? 200 then (baseSpeed (this w) + 0.05)%float
       else baseSpeed (this w).
Proof.
  intros Hb. cbv zeta. hit_cases item w.
  - apply ItemType_eqb_eq in Hb0. contradiction.
  - repeat match goal with |- context [if ?b then _ else _] =>
      destruct b; fields end; repeat split.
Qed.

Lemma handleCollision_hazard (item : Item.t) (w : World) :
  Item.type item = bomb ->
  let w' := exec (handleCollision item) w in
  combo (this w') = 0
  /\ score (this w') = score (this w)
  /\ life (this w') = life (this w) - 1
  /\ baseSpeed (this w') = baseSpeed (this w).
Proof.
  intros Hb. cbv zeta. hit_cases item w.
  - destruct (life (this w) - 1 <=? 0); fields; repeat split.
  - rewrite Hb in Hb0. discriminate.
Qed.

Lemma collisions_combo (its : list Item.t) (w : World) :
  Forall (fun it => Item.type it <> bomb) its ->
  combo (this (collisions its w))
  = combo (this w) + Z.of_nat (List.length its).
Proof.
  revert w. induction its as [|it its IH]; intros w H.
  - cbn. lia.
  - inversion H as [|? ? Hit Hits]; subst.
    cbn [collisions fold_left]. fold (collisions its (exec (handleCollision it) w)).
    rewrite IH by assumption.
    destruct (handleCollision_scoring it w Hit) as (-> & _).
    cbn [List.length]. lia.
Qed.

(** *** Items that stay, items that are missed *)

Lemma handleCollision_playerX (item : Item.t) (w : World) :
  playerX (this (exec (handleCollision item) w)) = playerX (this w).
Proof.
  hit_cases item w.
  - destruct (life (this w) - 1 <=? 0); reflexivity.
  - repeat match goal with |- context [if ?b then _ else _] =>
      destruct b; fields end; reflexivity.
Qed.

(** The loop leaves the advanced items that stay, and does not move the
    player. *)
Lemma update_items_result (playerY hitDist h : float) (its : list Item.t)
    (w : World) :
  exists w',
    update_items playerY hitDist h its w
    = (Normal (filter (stays playerY hitDist h (playerX (this w)))
                 (map advance its)), w')
    /\ playerX (this w') = playerX (this w).
Proof.
  induction its as [|it rest IH].
  - exists w. split; reflexivity.
  - destruct IH as (w1 & E & Hx).
    cbn [update_items map filter]. rewrite (bind_normal _ _ _ _ _ E).
    rewrite bind_get, Hx.
    destruct (collides playerY hitDist (playerX (this w)) (advance it))
      eqn:Hcol.
    + replace (stays playerY hitDist h (playerX (this w)) (advance it))
        with false by (unfold stays; now rewrite Hcol).
      rewrite (bind_normal _ _ _ _ _ (handleCollision_normal _ _)).
      eexists. split; [reflexivity|].
      now rewrite handleCollision_playerX.
    + destruct (h <? Item.y (advance it))%float eqn:Hy.
      * replace (stays playerY hitDist h (playerX (this w)) (advance it))
          with false by (unfold stays; now rewrite Hcol, Hy).
        rewrite (bind_normal _ _ _ _ _ (resetCombo_eq _)).
        eexists. split; [reflexivity | exact Hx].
      * replace (stays playerY hitDist h (playerX (this w)) (advance it))
          with true by (unfold stays; now rewrite Hcol, Hy).
        eexists. split; [reflexivity | exact Hx].
Qed.

(** The iteration for an item that has left the canvas without colliding:
    the item is dropped and the world is that of [resetCombo()] after the
    iterations for the items behind it. *)
Lemma update_items_miss (playerY hitDist h : float) (it : Item.t)
    (rest : list Item.t) (w : World) :
  collides playerY hitDist (playerX (this w)) (advance it) = false ->
  (h <? Item.y (advance it))%float = true ->
  update_items playerY hitDist h (it :: rest) w
  = (fst (update_items playerY hitDist h rest w),
     exec resetCombo (exec (update_items playerY hitDist h rest) w)).
Proof.
  intros Hc Hy.
  destruct (update_items_result playerY hitDist h rest w) as (w1 & E & Hx).
  cbn [update_items]. rewrite (bind_normal _ _ _ _ _ E).
  rewrite bind_get, Hx, Hc, Hy.
  rewrite (bind_normal _ _ _ _ _ (resetCombo_eq _)).
  unfold exec. rewrite E. cbn [fst snd]. now rewrite resetCombo_eq.
Qed.

Lemma resetCombo_combo (w : World) : combo (this (exec resetCombo w)) = 0.
Proof. unfold exec. now rewrite resetCombo_eq. Qed.

(** [update] while playing with a canvas completes, and its items are the
    advanced items (the one it may have spawned included) that stay. *)
Lemma update_items_after (w : World) (c : Canvas) :
  state (this w) = PLAYING ->
  canvas (this w) = Some c ->
  exists tail,
    (tail = [] \/ exists it, tail = [it])
    /\ fst (update w) = Normal tt
    /\ items (this (exec update w))
       = filter (stays (height c * 0.85)%float 50%float (height c)
                   (playerX (stepped (this w))))
           (map advance (items (this w) ++ tail)).
Proof.
  intros Hs Hc.
  destruct (update_playing w Hs)
    as [(Hn & _) | (c' & g1 & d1 & its' & w2 & Hc' & Hg1 & Eloop & E)];
    [congruence|].
  assert (c' = c) as -> by congruence.
  unfold exec. rewrite E. cbn [fst snd]; fields.
  destruct (settled_scoring its' (this w2)) as (_ & _ & ->).
  destruct (update_items_result (height c * 0.85)%float 50%float (height c)
              (items g1) (mkWorld g1 d1 (effects w))) as (w2' & E' & _).
  rewrite Eloop in E'. injection E' as -> _. fields.
  destruct Hg1 as [-> | (it & _ & ->)].
  - exists []. rewrite app_nil_r. repeat split. now left.
  - exists [it]. repeat split. right. now exists it.
Qed.

(** C9: while playing with a canvas, [update] completes, and an item of
    the list that, once advanced, does not collide with the player and is
    below the canvas is not among the items afterwards; the iteration that
    handles it, whatever the items behind it and the combo before, leaves
    the combo 0; and so does the whole [update] when the item is the first
    of the list, the one handled last. *)
Theorem missed_item_removed (w : World) (c : Canvas) (it : Item.t) :
  state (this w) = PLAYING ->
  canvas (this w) = Some c ->
  In it (items (this w)) ->
  let h := height c in
  let playerY := (h * 0.85)%float in
  let px := playerX (stepped (this w)) in
  collides playerY 50%float px (advance it) = false ->
  (h <? Item.y (advance it))%float = true ->
  fst (update w) = Normal tt
  /\ ~ In (advance it) (items (this (exec update w)))
  /\ (forall rest w0,
        playerX (this w0) = px ->
        combo (this (exec (update_items playerY 50%float h (it :: rest)) w0))
        = 0)
  /\ (forall post,
        items (this w) = it :: post -> combo (this (exec update w)) = 0).
Proof.
  intros Hs Hc Hin h playerY px Hcol Hy.
  destruct (update_items_after w c Hs Hc) as (tail & _ & Hn & Hi).
  split; [exact Hn|]. split; [|split].
  - rewrite Hi. intros H. apply filter_In in H. destruct H as (_ & H).
    unfold stays in H. fold h playerY px in H.
    rewrite Hcol, Hy in H. discriminate.
  - intros rest w0 Hx. unfold exec at 1.
    rewrite update_items_miss by (rewrite ?Hx; assumption).
    cbn [snd]. apply resetCombo_combo.
  - intros post Hp.
    destruct (update_playing w Hs)
      as [(Hn' & _) | (c' & g1 & d1 & its' & w2 & Hc' & Hg1 & Eloop & E)];
      [congruence|].
    assert (c' = c) as -> by congruence.
    unfold exec. rewrite E. cbn [snd]; fields.
    destruct (settled_scoring its' (this w2)) as (-> & _).
    assert (exists post', items g1 = it :: post'
                          /\ playerX g1 = px) as (post' & Hg & Hpx).
    { destruct Hg1 as [-> | (new & _ & ->)]; fields.
      - exists post. split; [exact Hp | reflexivity].
      - exists (post ++ [new])%list. rewrite Hp. split; reflexivity. }
    rewrite Hg in Eloop.
    rewrite update_items_miss in Eloop by (fields; rewrite ?Hpx; assumption).
    injection Eloop as _ <-. apply resetCombo_combo.
Qed.

(** C5: starting from combo 0, after the scoring hits [pre] the hit [it]
    is the k-th in a row, k = |pre| + 1: it leaves the combo at k and adds
    the item's score times 1 + floor(k / 10) to the score.  A hazard hit
    leaves the combo 0, and so does [resetCombo()], which is what the
    iteration of [update] for a missed item comes down to. *)
Theorem combo_multiplier (w : World) (pre : list Item.t) (it : Item.t) :
  combo (this w) = 0 ->
  Forall (fun i => Item.type i <> bomb) pre ->
  Item.type it <> bomb ->
  let k := Z.of_nat (List.length pre) + 1 in
  let w1 := collisions pre w in
  combo (this (exec (handleCollision it) w1)) = k
  /\ score (this (exec (handleCollision it) w1))
     = score (this w1) + Item.score it * (1 + k / 10)
  /\ (forall hazard w0,
        Item.type hazard = bomb ->
        combo (this (exec (handleCollision hazard) w0)) = 0)
  /\ (forall w0, combo (this (exec resetCombo w0)) = 0)
  /\ (forall playerY hitDist h missed rest w0,
        collides playerY hitDist (playerX (this w0)) (advance missed) = false ->
        (h <? Item.y (advance missed))%float = true ->
        exec (update_items playerY hitDist h (missed :: rest)) w0
        = exec resetCombo (exec (update_items playerY hitDist h rest) w0)).
Proof.
  intros H0 Hpre Hit k w1.
  destruct (handleCollision_scoring it w1 Hit) as (Hc & Hs & _).
  assert (combo (this w1) + 1 = k) as Hk.
  { unfold w1, k. rewrite collisions_combo by assumption. lia. }
  rewrite Hk in Hc, Hs.
  split; [exact Hc|]. split; [exact Hs|]. split; [|split].
  - intros hazard w0 Hh. now destruct (handleCollision_hazard hazard w0 Hh).
  - apply resetCombo_combo.
  - intros playerY hitDist h missed rest w0 Hcol Hy.
    unfold exec at 1. now rewrite update_items_miss.
Qed.

(** C4 (as the code has it): a scoring hit adds 0.05 to the base speed
    exactly when the score it leaves is less than 200 past a multiple of
    1000, that is when [score % 1000 < 200]; a hazard hit and a combo reset
    leave the base speed as it is. *)
Theorem speed_ramp (item : Item.t) (w : World) :
  let s := score (this w)
           + Item.score item * (1 + (combo (this w) + 1) / 10) in
  baseSpeed (this (exec (handleCollision item) w))
  = (if ItemType_eqb (Item.type item) bomb then baseSpeed (this w)
     else if Z.rem s 1000 <? 200 then (baseSpeed (this w) + 0.05)%float
          else baseSpeed (this w))
  /\ score (this (exec (handleCollision item) w))
     = (if ItemType_eqb (Item.type item) bomb then score (this w) else s)
  /\ baseSpeed (this (exec resetCombo w)) = baseSpeed (this w).
Proof.
  cbv zeta. destruct (ItemType_eqb (Item.type item) bomb) eqn:Hb.
  - apply ItemType_eqb_eq in Hb.
    destruct (handleCollision_hazard item w Hb) as (_ & Hs & _ & Hv).
    repeat split; try assumption. unfold exec. now rewrite resetCombo_eq.
  - assert (Item.type item <> bomb) as Hn.
    { intros H. rewrite H in Hb. discriminate. }
    destruct (handleCollision_scoring item w Hn) as (_ & Hs & _ & Hv).
    repeat split; try assumption. unfold exec. now rewrite resetCombo_eq.
Qed.

(** C2 (as the code has it): a burst is of 15 particles, whatever is asked
    for.  [spawnExplosion] completes and keeps the length of the pool; with
    [a] of its [C] slots active before, [a + min 15 (C - a)] are active
    after; and the slots that were active are left as they are. *)
Theorem spawnExplosion_activates (x y : float) (color : string) (w : World) :
  let ps := particles (this w) in
  let ps' := particles (this (exec (spawnExplosion x y color) w)) in
  fst (spawnExplosion x y color w) = Normal tt
  /\ List.length ps' = List.length ps
  /\ active_count ps'
     = (active_count ps
        + Nat.min 15 (List.length ps - active_count ps))%nat
  /\ Forall2 (fun p p' => Particle.active p = true -> p' = p) ps ps'.
Proof.
  cbv zeta. split; [|split; [|split]]; [| | |apply spawnExplosion_keeps].
  all: unfold exec;
    destruct (spawnExplosion_spec x y color w) as (ps' & d & E & L & C);
    rewrite E; cbn [fst snd]; fields.
  - reflexivity.
  - exact L.
  - rewrite C. pose proof (active_inactive_count (particles (this w))). lia.
Qed.

(** *** Pose labels *)

(** [setPose] of the richer engine in closed form: the labels are compared
    as they are. *)
Lemma setPose_eq (poseLabel : string) (w : World) (c : Canvas) :
  state (this w) = PLAYING ->
  canvas (this w) = Some c ->
  setPose poseLabel w
  = (Normal tt,
     mkWorld
       (let laneWidth := (width c / 3)%float in
        if (poseLabel =? "Left")%string
        then set_targetX (laneWidth * 0.5)%float (this w)
        else if (poseLabel =? "Center")%string
        then set_targetX (laneWidth * 1.5)%float (this w)
        else if (poseLabel =? "Right")%string
        then set_targetX (laneWidth * 2.5)%float (this w)
        else this w)
       (draws w) (effects w)).
Proof.
  intros Hs Hc. rewrite as_bind. unfold setPose. mstep. mstep. rewrite Hs.
  cbn [GameState_eqb negb]. mexec; cbv zeta;
    repeat match goal with H : (_ =? _)%string = _ |- _ => rewrite H end;
    try reflexivity.
  all: try congruence.
  all: now destruct w.
Qed.

(** C3 (as the code has it): while playing, with a canvas, [setPose]
    completes; it compares the label as it is with "Left", "Center" and
    "Right", and sets the target to the lane width times 0.5, 1.5 or 2.5
    for the one that matches; for any other label the target stays; and
    nothing but the target changes. *)
Theorem setPose_exact_labels (poseLabel : string) (w : World) (c : Canvas) :
  state (this w) = PLAYING ->
  canvas (this w) = Some c ->
  let laneWidth := (width c / 3)%float in
  let w' := exec (setPose poseLabel) w in
  fst (setPose poseLabel w) = Normal tt
  /\ targetX (this w')
     = (if (poseLabel =? "Left")%string then (laneWidth * 0.5)%float
        else if (poseLabel =? "Center")%string then (laneWidth * 1.5)%float
        else if (poseLabel =? "Right")%string then (laneWidth * 2.5)%float
        else targetX (this w))
  /\ w' = mkWorld (set_targetX (targetX (this w')) (this w))
            (draws w) (effects w).
Proof.
  intros Hs Hc. cbv zeta. unfold exec. rewrite (setPose_eq _ _ _ Hs Hc).
  cbn [fst snd]. cbv zeta.
  destruct (poseLabel =? "Left")%string;
    [|destruct (poseLabel =? "Center")%string;
      [|destruct (poseLabel =? "Right")%string]];
    fields; repeat split.
  now destruct w as [[] ? ?].
Qed.

(** ** Further properties *)

(** *** The frame update in closed form *)

Lemma spawnItem_eq (w : World) :
  spawnItem w
  = match canvas (this w) with
    | Some c =>
        (Normal tt,
         mkWorld
           (set_items
              (items (this w)
               ++ [new_item c (baseSpeed (this w)) (Math_random (draws w))
                     (Math_random (S (draws w)))
                     (Math_random (S (S (draws w))))])
              (this w))
           (S (S (S (draws w)))) (effects w))
    | None => (TypeError, mkWorld (this w) (S (draws w)) (effects w))
    end.
Proof.
  rewrite as_bind. unfold spawnItem, new_item.
  destruct (canvas (this w)) as [c|] eqn:Hc; msteps; [|reflexivity].
  repeat match goal with |- context [if ?b then _ else _] => destruct b end;
    cbn [types]; mexec; reflexivity.
Qed.

Lemma new_item_from_table (c : Canvas) (b r0 r r2 : float) :
  from_table (new_item c b r0 r r2).
Proof.
  unfold from_table, new_item.
  repeat match goal with |- context [if ?b then _ else _] => destruct b end;
    cbn.
  - exists 4%nat. split; [lia | reflexivity].
  - exists 3%nat. split; [lia | reflexivity].
  - exists 2%nat. split; [lia | reflexivity].
  - exists 1%nat. split; [lia | reflexivity].
  - exists 0%nat. split; [lia | reflexivity].
Qed.

(** Steps through [spawnItem] by its closed form, once the canvas is
    known. *)
Ltac mspawn_eq :=
  match goal with
  | |- context [bind spawnItem ?k ?w] =>
      unfold bind at 1; rewrite (spawnItem_eq w); fields;
      match goal with H : canvas _ = _ |- _ => rewrite H end;
      cbv beta iota; fields
  end.

(** [update] while playing, without a canvas: the exception comes after the
    player has moved and the timer has ticked, and after the lane draw of
    [spawnItem] when an item is due. *)
Lemma update_no_canvas (w : World) :
  state (this w) = PLAYING ->
  canvas (this w) = None ->
  update w
  = (TypeError,
     mkWorld (stepped (this w))
       (if spawn_due (this w) then S (draws w) else draws w) (effects w)).
Proof.
  intros HP Hc. rewrite as_bind. unfold update, spawn_due.
  mstep. mstep. rewrite HP. cbn [GameState_eqb negb].
  fields; repeat first [mstep | mspawn_eq]; reflexivity.
Qed.

(** [update] while playing, with a canvas, when no item is due. *)
Lemma update_no_spawn (w : World) (c : Canvas) :
  state (this w) = PLAYING ->
  canvas (this w) = Some c ->
  spawn_due (this w) = false ->
  exists its' w2,
    update_items (height c * 0.85)%float 50%float (height c)
      (items (this w)) (mkWorld (stepped (this w)) (draws w) (effects w))
    = (Normal its', w2)
    /\ update w
       = (Normal tt,
          mkWorld (settled its' (this w2)) (draws w2) (effects w2)).
Proof.
  intros HP Hc Hd. unfold spawn_due in Hd.
  rewrite (as_bind update w). unfold update.
  mstep. mstep. rewrite HP. cbn [GameState_eqb negb].
  fields; repeat first [mstep | mspawn_eq]; try congruence.
  match goal with |- context [bind (update_items ?a ?b ?c ?l) ?k ?w0] =>
    destruct (update_items_inv (fun _ => True) a b c l) with (w := w0)
      as (its' & w2 & E & _ & _); [easy | easy | easy |];
    rewrite (bind_normal _ k w0 _ _ E); cbv beta
  end.
  exists its', w2. split; [exact E|].
  unfold settled. mexec; reflexivity.
Qed.

(** [update] while playing, with a canvas, when an item is due: it is
    pushed behind the others, the timer restarts, and three draws are
    made before the loop. *)
Lemma update_spawn (w : World) (c : Canvas) :
  state (this w) = PLAYING ->
  canvas (this w) = Some c ->
  spawn_due (this w) = true ->
  let it :=
    new_item c (baseSpeed (this w)) (Math_random (draws w))
      (Math_random (S (draws w))) (Math_random (S (S (draws w)))) in
  exists its' w2,
    update_items (height c * 0.85)%float 50%float (height c)
      (items (this w) ++ [it])
      (mkWorld
         (set_spawnTimer 0
            (set_items (items (this w) ++ [it]) (stepped (this w))))
         (S (S (S (draws w)))) (effects w))
    = (Normal its', w2)
    /\ update w
       = (Normal tt,
          mkWorld (settled its' (this w2)) (draws w2) (effects w2)).
Proof.
  intros HP Hc Hd it. unfold spawn_due in Hd.
  rewrite (as_bind update w). unfold update.
  mstep. mstep. rewrite HP. cbn [GameState_eqb negb].
  fields; repeat first [mstep | mspawn_eq]; try congruence.
  match goal with |- context [bind (update_items ?a ?b ?c ?l) ?k ?w0] =>
    destruct (update_items_inv (fun _ => True) a b c l) with (w := w0)
      as (its' & w2 & E & _ & _); [easy | easy | easy |];
    rewrite (bind_normal _ k w0 _ _ E); cbv beta
  end.
  exists its', w2. split; [exact E|].
  unfold settled. mexec; reflexivity.
Qed.

(** [update] while playing with a canvas: the loop runs from
    [before_loop], always completes, and [update] settles what it leaves.
    A property of worlds that holds before the loop and that collisions
    with the items of the list and combo resets keep, holds after the
    loop. *)
Lemma update_frame (I : World -> Prop) (w : World) (c : Canvas) :
  state (this w) = PLAYING ->
  canvas (this w) = Some c ->
  I (before_loop c w) ->
  (forall it w0,
     In it (items (this (before_loop c w))) -> I w0 ->
     I (exec (handleCollision (advance it)) w0)) ->
  (forall w0, I w0 -> I (exec resetCombo w0)) ->
  exists its' w2,
    I w2
    /\ its' = filter (stays (height c * 0.85)%float 50%float (height c)
                        (playerX (stepped (this w))))
                (map advance (items (this (before_loop c w))))
    /\ update w
       = (Normal tt,
          mkWorld (settled its' (this w2)) (draws w2) (effects w2)).
Proof.
  intros HP Hc H0 Hhit Hreset.
  assert (exists its' w2,
            update_items (height c * 0.85)%float 50%float (height c)
              (items (this (before_loop c w))) (before_loop c w)
            = (Normal its', w2)
            /\ update w
               = (Normal tt,
                  mkWorld (settled its' (this w2)) (draws w2) (effects w2)))
    as (its' & w2 & Eloop & E).
  { unfold before_loop. cbv zeta.
    destruct (spawn_due (this w)) eqn:Hd.
    - exact (update_spawn w c HP Hc Hd).
    - exact (update_no_spawn w c HP Hc Hd). }
  destruct (update_items_inv I (height c * 0.85)%float 50%float (height c)
              (items (this (before_loop c w))) Hhit Hreset
              (before_loop c w) H0) as (its1 & w1 & E1 & HI & _).
  destruct (update_items_result (height c * 0.85)%float 50%float (height c)
              (items (this (before_loop c w))) (before_loop c w))
    as (w3 & E3 & _).
  rewrite Eloop in E1, E3. injection E1 as <- <-. injection E3 as -> _.
  eexists _, w2. split; [exact HI|]. split; [|exact E].
  f_equal. f_equal. unfold before_loop. cbv zeta.
  destruct (spawn_due (this w)); reflexivity.
Qed.

(** *** Calls outside a game, calls without a canvas *)

(** X1: while the state is not PLAYING, [update] and [setPose] complete and
    change nothing: no field, no draw, no effect, canvas or not. *)
Theorem not_playing_is_idle (w : World) (poseLabel : string) :
  state (this w) <> PLAYING ->
  update w = (Normal tt, w) /\ setPose poseLabel w = (Normal tt, w).
Proof.
  intros H. split; [now apply update_idle|].
  rewrite as_bind. unfold setPose. mstep. mstep.
  destruct (state (this w)); cbn; try reflexivity. congruence.
Qed.

(** X2: while playing on an engine that was never given a canvas, [setPose]
    raises having changed nothing, and [update] raises once the player has
    moved and the spawn timer has ticked, one draw later when an item was
    due; neither notifies a listener. *)
Theorem playing_needs_a_canvas (w : World) (poseLabel : string) :
  state (this w) = PLAYING ->
  canvas (this w) = None ->
  setPose poseLabel w = (TypeError, w)
  /\ update w
     = (TypeError,
        mkWorld (stepped (this w))
          (if spawn_due (this w) then S (draws w) else draws w)
          (effects w)).
Proof.
  intros HP Hc. split; [|now apply update_no_canvas].
  rewrite as_bind. unfold setPose. mstep. mstep. rewrite HP.
  cbn [GameState_eqb negb]. mstep. mstep. reflexivity.
Qed.

(** *** What a frame leaves alone *)

Lemma handleCollision_setup (item : Item.t) (w : World) :
  same_setup (this w) (this (exec (handleCollision item) w))
  /\ life (this (exec (handleCollision item) w)) <= life (this w)
  /\ spawnTimer (this (exec (handleCollision item) w)) = spawnTimer (this w).
Proof.
  unfold same_setup. hit_cases item w.
  - destruct (life (this w) - 1 <=? 0); fields; repeat split; lia.
  - repeat match goal with |- context [if ?b then _ else _] =>
      destruct b; fields end; repeat split; lia.
Qed.

Lemma same_setup_trans (g1 g2 g3 : GameEngine) :
  same_setup g1 g2 -> same_setup g2 g3 -> same_setup g1 g3.
Proof.
  unfold same_setup. intros H1 H2.
  repeat match goal with H : _ /\ _ |- _ => destruct H end.
  repeat split; congruence.
Qed.

Lemma same_setup_refl (g : GameEngine) : same_setup g g.
Proof. unfold same_setup. repeat split. Qed.

Lemma settled_setup (its' : list Item.t) (g : GameEngine) :
  same_setup g (settled its' g)
  /\ life (settled its' g) = life g
  /\ spawnTimer (settled its' g) = spawnTimer g.
Proof.
  unfold same_setup, settled.
  destruct (0 <? shakeTimer g), (0 <? flashTimer g); repeat split.
Qed.

Lemma before_loop_setup (c : Canvas) (w : World) :
  same_setup (this w) (this (before_loop c w))
  /\ life (this (before_loop c w)) = life (this w)
  /\ spawnTimer (this (before_loop c w))
     = (if spawn_due (this w) then 0 else spawnTimer (this w) + 1)
  /\ List.length (items (this (before_loop c w)))
     = (List.length (items (this w))
        + if spawn_due (this w) then 1 else 0)%nat
  /\ effects (before_loop c w) = effects w.
Proof.
  unfold same_setup, before_loop. cbv zeta.
  destruct (spawn_due (this w)); cbn [this effects]; unfold stepped; fields;
    repeat split; rewrite ?length_app; cbn [List.length];
    try reflexivity; lia.
Qed.

(** X3: a frame never writes the canvas, the context, the level, the maximal
    combo, the lane count, the player lane, the target, the spawn interval
    or the listeners, and never raises the life, in whatever state it is
    called and however it completes. *)
Theorem update_leaves_setup (w : World) :
  same_setup (this w) (this (exec update w))
  /\ life (this (exec update w)) <= life (this w).
Proof.
  unfold exec.
  destruct (state (this w)) eqn:Hs;
    try (rewrite update_idle by congruence; split;
         [apply same_setup_refl | cbn; lia]).
  destruct (canvas (this w)) as [c|] eqn:Hc.
  - destruct (update_frame
                (fun w0 => same_setup (this w) (this w0)
                           /\ life (this w0) <= life (this w))
                w c Hs Hc) as (its' & w2 & [HS HL] & _ & E).
    + destruct (before_loop_setup c w) as (H1 & H2 & _). split; [exact H1|lia].
    + intros it w0 _ [H1 H2].
      destruct (handleCollision_setup (advance it) w0) as (H3 & H4 & _).
      split; [eapply same_setup_trans; eassumption | lia].
    + intros w0 [H1 H2]. unfold exec. rewrite resetCombo_eq. cbn [snd].
      split; [|exact H2]. eapply same_setup_trans; [exact H1|].
      unfold same_setup; fields; repeat split.
    + rewrite E. cbn [snd this].
      destruct (settled_setup its' (this w2)) as (H1 & H2 & _).
      split; [eapply same_setup_trans; eassumption | lia].
  - rewrite update_no_canvas by assumption. cbn [snd this].
    unfold same_setup, stepped; fields. repeat split. lia.
Qed.

(** *** The spawn timer *)

(** X4: while playing with a canvas, a frame completes; it restarts the spawn
    timer at 0 when the ticked timer has passed the interval and leaves it
    ticked otherwise; and it leaves at most as many items as it found,
    plus the one it spawned. *)
Theorem update_spawn_cadence (w : World) (c : Canvas) :
  state (this w) = PLAYING ->
  canvas (this w) = Some c ->
  let due := spawnInterval (this w) <? spawnTimer (this w) + 1 in
  fst (update w) = Normal tt
  /\ spawnTimer (this (exec update w))
     = (if due then 0 else spawnTimer (this w) + 1)
  /\ (List.length (items (this (exec update w)))
      <= List.length (items (this w)) + (if due then 1 else 0))%nat.
Proof.
  intros Hs Hc due.
  destruct (update_frame
              (fun w0 => spawnTimer (this w0)
                         = spawnTimer (this (before_loop c w)))
              w c Hs Hc) as (its' & w2 & HT & Hi & E).
  - reflexivity.
  - intros it w0 _ H.
    destruct (handleCollision_setup (advance it) w0) as (_ & _ & H3).
    congruence.
  - intros w0 H. unfold exec. rewrite resetCombo_eq. exact H.
  - unfold exec. rewrite E. cbn [fst snd this].
    destruct (settled_setup its' (this w2)) as (_ & _ & ->).
    destruct (settled_scoring its' (this w2)) as (_ & _ & ->).
    destruct (before_loop_setup c w) as (_ & _ & H3 & H4 & _).
    fold (spawn_due (this w)) in due. subst due.
    split; [reflexivity|]. split; [congruence|].
    rewrite Hi, <- H4.
    etransitivity; [apply filter_length_le|]. now rewrite length_map.
Qed.

(** *** Bounds that every run keeps *)

Lemma from_table_score (it : Item.t) :
  from_table it ->
  0 <= Item.score it
  /\ (Item.type it = bomb <-> Item.score it = 0)
  /\ (Item.type it <> bomb -> 100 <= Item.score it <= 1000).
Proof.
  intros (i & Hi & E).
  do 5 (destruct i as [|i]; [cbn in E; injection E as -> -> _ _;
                             repeat split; (lia || congruence)|]).
  lia.
Qed.

Lemma from_table_advance (it : Item.t) :
  from_table it -> from_table (advance it).
Proof. intros H. exact H. Qed.

Lemma handleCollision_vitals (item : Item.t) (w : World) :
  0 <= Item.score item ->
  vitals_ok (this w) -> vitals_ok (this (exec (handleCollision item) w)).
Proof.
  unfold vitals_ok. intros Hs (Hl & Hsc & Hc & Hsh & Hfl). hit_cases item w.
  - destruct (life (this w) - 1 <=? 0); fields; repeat split; lia.
  - assert (0 <= (combo (this w) + 1) / 10) by (apply Z.div_pos; lia).
    repeat match goal with |- context [if ?b then _ else _] =>
      destruct b; fields end; repeat split; nia.
Qed.

Lemma settled_vitals (its' : list Item.t) (g : GameEngine) :
  vitals_ok g -> vitals_ok (settled its' g).
Proof.
  unfold vitals_ok, settled. intros (Hl & Hsc & Hc & Hsh & Hfl).
  destruct (0 <? shakeTimer g) eqn:H1, (0 <? flashTimer g) eqn:H2; fields;
    repeat split; lia.
Qed.

Lemma update_vitals (w : World) :
  vitals_ok (this w) -> Forall from_table (items (this w)) ->
  vitals_ok (this (exec update w))
  /\ Forall from_table (items (this (exec update w))).
Proof.
  intros Hv Hi. unfold exec.
  destruct (state (this w)) eqn:Hs;
    try (rewrite update_idle by congruence; now split).
  destruct (canvas (this w)) as [c|] eqn:Hc.
  - assert (vitals_ok (this (before_loop c w))
            /\ Forall from_table (items (this (before_loop c w))))
      as [Hv0 Hi0].
    { unfold before_loop. cbv zeta.
      destruct (spawn_due (this w)); cbn [this]; unfold stepped.
      - split; [exact Hv|]. fields. apply Forall_app. split; [exact Hi|].
        constructor; [apply new_item_from_table | constructor].
      - split; [exact Hv | exact Hi]. }
    destruct (update_frame (fun w0 => vitals_ok (this w0)) w c Hs Hc Hv0)
      as (its' & w2 & Hv2 & Hits & E).
    + intros it w0 Hin. apply handleCollision_vitals.
      rewrite Forall_forall in Hi0.
      now destruct (from_table_score it (Hi0 it Hin)).
    + intros w0 (Hl & Hsc & Hcb & Hsh & Hfl). unfold exec.
      rewrite resetCombo_eq. cbn [snd]. unfold vitals_ok; fields.
      repeat split; lia.
    + rewrite E. cbn [snd this]. split; [now apply settled_vitals|].
      destruct (settled_scoring its' (this w2)) as (_ & _ & ->).
      rewrite Hits, Forall_forall. intros it Hin.
      apply filter_In in Hin. destruct Hin as (Hin & _).
      apply in_map_iff in Hin. destruct Hin as (it0 & <- & Hin0).
      apply from_table_advance.
      rewrite Forall_forall in Hi0. now apply Hi0.
  - rewrite update_no_canvas by assumption. cbn [snd this]. now split.
Qed.

Lemma call_vitals (c : Call) (w : World) :
  vitals_ok (this w) /\ Forall from_table (items (this w)) ->
  vitals_ok (this (exec (call c) w))
  /\ Forall from_table (items (this (exec (call c) w))).
Proof.
  intros [Hv Hi]. pose proof Hv as (Hl & Hsc & Hcb & Hsh & Hfl).
  destruct c; cbn [call].
  - unfold exec. rewrite as_bind. unfold init. mexec. now split.
  - unfold exec. rewrite as_bind. unfold start. mexec.
    unfold vitals_ok. cbn [snd]; fields.
    repeat split; (lia || constructor).
  - unfold exec. rewrite as_bind. unfold setPose. mexec; now split.
  - now apply update_vitals.
  - rewrite draw_this. now split.
  - unfold exec. destruct (spawnExplosion_spec x y color w)
      as (ps' & d & E & _). rewrite E. now split.
  - unfold exec. rewrite spawnItem_eq.
    destruct (canvas (this w)); cbn [snd this]; [|now split].
    split; [exact Hv|]. fields. apply Forall_app. split; [exact Hi|].
    constructor; [apply new_item_from_table | constructor].
  - unfold exec. rewrite resetCombo_eq. unfold vitals_ok.
    cbn [snd]; fields. repeat split; (lia || assumption).
  - unfold exec. rewrite notifyUI_eq. now split.
  - unfold exec. rewrite gameOver_eq. now split.
  - now split.
  - now split.
Qed.

Lemma run_vitals (cs : list Call) :
  vitals_ok (this (run cs world0))
  /\ Forall from_table (items (this (run cs world0))).
Proof.
  assert (vitals_ok (this world0)
          /\ Forall from_table (items (this world0))) as H0.
  { unfold vitals_ok. cbn. repeat split; (lia || constructor). }
  revert H0. generalize world0.
  induction cs as [|c cs IH]; intros w Hw; [exact Hw|].
  cbn [run fold_left]. apply IH. now apply call_vitals.
Qed.

(** X6: on an engine driven by any sequence of calls, the life never exceeds
    the 3 of a new game, the score and the combo are never negative, the
    shake timer stays within 0..20 and the flash timer within 0..5. *)
Theorem vitals_stay_in_bounds (cs : list Call) :
  let g := this (run cs world0) in
  life g <= 3 /\ 0 <= score g /\ 0 <= combo g
  /\ 0 <= shakeTimer g <= 20 /\ 0 <= flashTimer g <= 5.
Proof.
  cbv zeta. destruct (run_vitals cs) as [H _].
  unfold vitals_ok in H. exact H.
Qed.

(** X7: on an engine driven by any sequence of calls, every item on the list
    has the type, score, colour and icon of one entry of the table of
    [spawnItem]: a bomb scores 0, and any other item between 100 and
    1000. *)
Theorem items_come_from_the_table (cs : list Call) (it : Item.t) :
  In it (items (this (run cs world0))) ->
  (exists i : nat,
     (i <= 4)%nat
     /\ (Item.type it, Item.score it, Item.color it, Item.icon it) = types i)
  /\ (Item.type it = bomb <-> Item.score it = 0)
  /\ (Item.type it <> bomb -> 100 <= Item.score it <= 1000).
Proof.
  intros Hin. pose proof (proj2 (run_vitals cs)) as H.
  rewrite Forall_forall in H. specialize (H it Hin).
  split; [exact H|]. now destruct (from_table_score it H) as (_ & H1 & H2).
Qed.

(** *** The end of the game *)

Lemma game_ends_effects (w w' : World) :
  effects w' = effects w -> game_ends w' = game_ends w.
Proof. unfold game_ends. now intros ->. Qed.

(** Counts the game-end calls among effects that end in notifications. *)
Ltac count_ends :=
  unfold game_ends in *; cbn [effects] in *;
  rewrite ?filter_app, ?length_app;
  repeat match goal with
         | |- context [if ?b then _ else _] => destruct b
         end;
  cbn [filter List.length]; lia.

Lemma handleCollision_ending (item : Item.t) (w : World) (n : nat) :
  (state (this w) = PLAYING /\ game_ends w = n)
  \/ (state (this w) = GAME_OVER /\ life (this w) <= 0) ->
  let w' := exec (handleCollision item) w in
  (state (this w') = PLAYING /\ game_ends w' = n)
  \/ (state (this w') = GAME_OVER /\ life (this w') <= 0).
Proof.
  intros H. cbv zeta. hit_cases item w.
  - destruct (life (this w) - 1 <=? 0) eqn:Hl; fields.
    + right. split; [reflexivity | lia].
    + destruct H as [[Hs Hn] | [Hs Hl']]; [|lia].
      left. split; [exact Hs | count_ends].
  - destruct (life (this w) <=? 0) eqn:Hl.
    + right.
      repeat match goal with |- context [if ?b then _ else _] =>
        destruct b; fields end; (split; [reflexivity | lia]).
    + destruct H as [[Hs Hn] | [Hs Hl']]; [|lia].
      left. split.
      * repeat match goal with |- context [if ?b then _ else _] =>
          destruct b; fields end; exact Hs.
      * count_ends.
Qed.

(** X8: a frame that starts while playing ends either still playing, the
    game-end listener not having been called, or with the game over and no
    life left.  So the listener is called only in a frame that leaves the
    state GAME_OVER and the life at 0 or less. *)
Theorem game_ends_only_without_life (w : World) :
  state (this w) = PLAYING ->
  let w' := exec update w in
  (state (this w') = PLAYING /\ game_ends w' = game_ends w)
  \/ (state (this w') = GAME_OVER /\ life (this w') <= 0).
Proof.
  intros Hs. cbv zeta. unfold exec.
  destruct (canvas (this w)) as [c|] eqn:Hc.
  - destruct (update_frame
                (fun w0 =>
                   (state (this w0) = PLAYING /\ game_ends w0 = game_ends w)
                   \/ (state (this w0) = GAME_OVER /\ life (this w0) <= 0))
                w c Hs Hc) as (its' & w2 & H & _ & E).
    + left. unfold before_loop. cbv zeta.
      destruct (spawn_due (this w)); cbn [this]; unfold stepped; fields;
        (split; [exact Hs | now apply game_ends_effects]).
    + intros it w0 _. apply handleCollision_ending.
    + intros w0 H. unfold exec. rewrite resetCombo_eq. cbn [snd]; fields.
      destruct H as [[H1 H2] | H]; [left | now right].
      split; [exact H1 | count_ends].
    + rewrite E. cbn [snd this].
      assert (state (settled its' (this w2)) = state (this w2)
              /\ life (settled its' (this w2)) = life (this w2))
        as (-> & ->).
      { unfold settled.
        destruct (0 <? shakeTimer (this w2)), (0 <? flashTimer (this w2));
          split; reflexivity. }
      destruct H as [[H1 H2] | H]; [left | now right].
      split; [exact H1|]. rewrite <- H2. now apply game_ends_effects.
  - rewrite update_no_canvas by assumption. cbn [snd this]. left.
    split; [exact Hs | now apply game_ends_effects].
Qed.

(** *** What the listener is told after a collision *)

(** X9: with a score-change listener installed, the effects of a collision
    are: possibly one earlier notification (the one of the combo reset),
    then a notification of the score, life, level and combo the engine is
    left with, then possibly the game-end call, with that score and level;
    nothing else. *)
Theorem collision_reports_final_values (item : Item.t) (w : World) :
  onScoreChange (this w) = true ->
  let w' := exec (handleCollision item) w in
  let g' := this w' in
  exists pre post,
    effects w'
    = (effects w ++ pre
       ++ OnScoreChange (score g') (life g') (level g') (combo g') :: post)%list
    /\ (pre = [] \/ pre = [OnScoreChange (score g') (life g') (level g') 0])
    /\ (post = [] \/ post = [OnGameEnd (score g') (level g')]).
Proof.
  intros Hl. cbv zeta. hit_cases item w; rewrite Hl.
  - exists [OnScoreChange (score (this w)) (life (this w) - 1)
              (level (this w)) 0].
    destruct (life (this w) - 1 <=? 0); fields;
      destruct (onGameEnd (this w)); eexists;
      (split; [reflexivity|]); split; auto.
  - exists [].
    destruct (life (this w) <=? 0);
      repeat match goal with |- context [if ?b then _ else _] =>
        destruct b; fields end;
      eexists; (split; [reflexivity|]); split; auto.
Qed.

(** *** Drawing *)

Lemma stack_depth_particles (ps : list Particle.t) (r : list CanvasOp)
    (n : nat) :
  stack_depth n (flat_map Particle.draw ps ++ r) = stack_depth n r.
Proof.
  induction ps as [|p ps IH]; [reflexivity|].
  cbn [flat_map]. rewrite <- app_assoc. unfold Particle.draw at 1.
  destruct (Particle.active p); cbn [negb app stack_depth]; exact IH.
Qed.

Lemma stack_depth_items (its : list Item.t) (r : list CanvasOp) (n : nat) :
  stack_depth n (flat_map draw_item its ++ r) = stack_depth n r.
Proof.
  induction its as [|it its IH]; [reflexivity|].
  cbn [flat_map]. rewrite <- app_assoc.
  cbn [draw_item app stack_depth]. exact IH.
Qed.

Lemma last_app_cons {A} (l r : list A) (x d : A) :
  last (l ++ x :: r) d = last (x :: r) d.
Proof.
  induction l as [|a l IH]; [reflexivity|].
  cbn [app]. rewrite <- IH. destruct (l ++ x :: r)%list eqn:E; [|reflexivity].
  now destruct l.
Qed.

Lemma last_cons_app {A} (a : A) (l r : list A) (x d : A) :
  last (a :: l ++ x :: r) d = last (x :: r) d.
Proof. exact (last_app_cons (a :: l) r x d). Qed.

Lemma last_cons_cons {A} (a b : A) (l : list A) (d : A) :
  last (a :: b :: l) d = last (b :: l) d.
Proof. reflexivity. Qed.

(** X10: [draw] never writes to the engine.  Without a rendering context it
    does nothing at all; with a context but no canvas it raises at once.
    Otherwise it completes, makes two draws exactly when the shake timer
    runs, and issues canvas commands in which every [restore] undoes an
    earlier [save] and every [save] is undone; the last command is the
    GAME OVER text when the game is over and the closing [restore]
    otherwise. *)
Theorem draw_frame (w : World) :
  match ctx (this w), canvas (this w) with
  | false, _ => draw w = (Normal tt, w)
  | true, None => draw w = (TypeError, w)
  | true, Some c =>
      exists ops,
        draw w
        = (Normal tt,
           mkWorld (this w)
             (if 0 <? shakeTimer (this w) then S (S (draws w)) else draws w)
             (effects w ++ map Draw ops))
        /\ stack_depth 0 ops = Some 0%nat
        /\ last ops save
           = (if GameState_eqb (state (this w)) GAME_OVER
              then fillText "GAME OVER" (width c / 2)%float
                     (height c / 2)%float
              else restore)
  end.
Proof.
  destruct (ctx (this w)) eqn:Hx.
  2:{ rewrite as_bind. unfold draw. mstep. mstep. rewrite Hx. reflexivity. }
  destruct (canvas (this w)) as [c|] eqn:Hc.
  2:{ rewrite as_bind. unfold draw. mstep. mstep. rewrite Hx.
      cbn [negb]. mstep. mstep. reflexivity. }
  rewrite (as_bind draw w). unfold draw. mstep. mstep. rewrite Hx.
  cbn [negb]. mexec.
  all: repeat rewrite <- app_assoc; repeat rewrite <- map_app.
  all: eexists; split; [try (now destruct w); reflexivity|].
  all: cbn [app draw_lane]; split.
  all: try (cbn [stack_depth]; rewrite stack_depth_particles;
            cbn [app stack_depth]; rewrite stack_depth_items;
            reflexivity).
  all: repeat first [rewrite last_cons_app | rewrite last_cons_cons];
       reflexivity.
Qed.

(** *** The life of a particle *)

Lemma Particle_update_inactive (p : Particle.t) :
  Particle.active p = false -> Particle.update p = p.
Proof. intros H. unfold Particle.update. now rewrite H. Qed.

Lemma Particle_iter_inactive (n : nat) (p : Particle.t) :
  Particle.active p = false -> Nat.iter n Particle.update p = p.
Proof.
  intros H. induction n as [|n IH]; [reflexivity|].
  rewrite Nat.iter_succ, IH. now apply Particle_update_inactive.
Qed.

Lemma Particle_update_active (p : Particle.t) :
  Particle.active (Particle.update p) = true -> Particle.active p = true.
Proof.
  destruct (Particle.active p) eqn:Ha; [reflexivity|].
  rewrite Particle_update_inactive by exact Ha. congruence.
Qed.

(** X11: a particle, wherever and however it was spawned, is active for the 33
    frames that follow and inactive from the 34th on; and advancing the
    pool never activates a slot. *)
Theorem particle_lives_33_frames (r1 r2 r3 x y : float) (color : string)
    (p : Particle.t) (n : nat) (ps : list Particle.t) :
  Particle.active
    (Nat.iter n Particle.update
       (Particle.spawn Math_cos Math_sin r1 r2 r3 x y color p))
  = (n <? 34)%nat
  /\ (active_count (map Particle.update ps) <= active_count ps)%nat.
Proof.
  split.
  - destruct (Nat.ltb_spec n 34) as [Hn|Hn].
    + do 34 (destruct n as [|n]; [vm_compute; reflexivity|]). lia.
    + replace n with ((n - 34) + 34)%nat by lia.
      rewrite Nat.iter_add. rewrite Particle_iter_inactive; vm_compute;
        reflexivity.
  - induction ps as [|q ps IH]; [apply Nat.le_refl|].
    cbn [map]. rewrite !active_count_cons.
    pose proof (Particle_update_active q) as H.
    destruct (Particle.active (Particle.update q)), (Particle.active q);
      try lia; specialize (H eq_refl); discriminate.
Qed.

(** *** The draws of a burst *)

Lemma spawnExplosion_loop_draws (x y : float) (color : string)
    (ps : list Particle.t) :
  forall (count : Z) (w : World), count < 15 ->
  draws (exec (spawnExplosion_loop x y color count ps) w)
  = (draws w
     + 3 * Nat.min (Z.to_nat (15 - count)) (inactive_count ps))%nat.
Proof.
  induction ps as [|p ps IH]; intros count w Hc.
  - unfold exec. cbn. unfold inactive_count. cbn. lia.
  - unfold exec in *. cbn [spawnExplosion_loop].
    destruct (Particle.active p) eqn:Ha; cbn [negb].
    + destruct (spawnExplosion_loop_spec x y color ps count w Hc)
        as (ps1 & d & E & _).
      rewrite (bind_normal _ _ _ _ _ E). cbn [ret snd].
      specialize (IH count w Hc). rewrite E in IH. cbn [snd draws] in IH.
      rewrite inactive_count_cons, Ha. cbn [draws]. lia.
    + unfold Particle_spawn, random. cbn.
      rewrite inactive_count_cons, Ha.
      destruct (count + 1 >=? 15) eqn:Hb; cbn.
      * lia.
      * match goal with |- context [bind _ _ ?w1] => set (w1' := w1) end.
        destruct (spawnExplosion_loop_spec x y color ps (count + 1) w1')
          as (ps1 & d & E & _); [lia|].
        rewrite (bind_normal _ _ _ _ _ E). cbn [ret snd draws].
        specialize (IH (count + 1) w1'). rewrite E in IH.
        cbn [snd draws] in IH. rewrite IH by lia.
        subst w1'. cbn [draws]. lia.
Qed.

Lemma all_active_kept (ps ps' : list Particle.t) :
  inactive_count ps = 0%nat ->
  Forall2 (fun p p' => Particle.active p = true -> p' = p) ps ps' ->
  ps' = ps.
Proof.
  intros H0 HF. induction HF as [|p p' ps ps' Hp HF IH]; [reflexivity|].
  rewrite inactive_count_cons in H0.
  destruct (Particle.active p) eqn:Ha; [|discriminate].
  rewrite Hp by reflexivity. f_equal. apply IH. exact H0.
Qed.

(** X12: a burst makes three draws for each particle it activates, and has no
    effect a listener or the canvas sees; on a pool with no inactive slot
    it changes nothing at all. *)
Theorem burst_costs_three_draws_each (x y : float) (color : string)
    (w : World) :
  let w' := exec (spawnExplosion x y color) w in
  let free := inactive_count (particles (this w)) in
  draws w' = (draws w + 3 * Nat.min 15 free)%nat
  /\ effects w' = effects w
  /\ (if (free =? 0)%nat then w' = w else True).
Proof.
  cbv zeta.
  pose proof (spawnExplosion_keeps x y color w) as HK.
  pose proof (spawnExplosion_loop_draws x y color (particles (this w)) 0 w)
    as HD.
  unfold exec in *. unfold spawnExplosion in *.
  destruct (spawnExplosion_loop_spec x y color (particles (this w)) 0 w)
    as (ps' & d & E & _); [lia|].
  rewrite bind_get in *. rewrite (bind_normal _ _ _ _ _ E) in *.
  rewrite E in HD. cbn [snd draws] in HD. specialize (HD ltac:(lia)).
  cbn in HK. cbn.
  split; [exact HD|]. split; [reflexivity|].
  destruct (inactive_count (particles (this w)) =? 0)%nat eqn:H0; [|exact I].
  apply Nat.eqb_eq in H0.
  rewrite (all_active_kept _ _ H0 HK). rewrite HD, H0.
  destruct w as [[] ? ?]. cbn. f_equal. lia.
Qed.

(** *** The items after a frame *)

(** X5: while playing with a canvas, the items after a frame are the items
    before it, followed by the one spawned when one was due, each advanced
    by its speed and turned by 0.05, less those that collided with the
    player (as moved by this frame) or left the canvas; their order is
    kept. *)
Theorem update_keeps_items_in_order (w : World) (c : Canvas) :
  state (this w) = PLAYING ->
  canvas (this w) = Some c ->
  let g := this w in
  let spawned :=
    if spawnInterval g <? spawnTimer g + 1
    then [new_item c (baseSpeed g) (Math_random (draws w))
            (Math_random (S (draws w))) (Math_random (S (S (draws w))))]
    else [] in
  items (this (exec update w))
  = filter (stays (height c * 0.85)%float 50%float (height c)
              (playerX g + (targetX g - playerX g) * 0.4)%float)
      (map advance (items g ++ spawned)).
Proof.
  intros Hs Hc. cbv zeta.
  destruct (update_frame (fun _ => True) w c Hs Hc I)
    as (its' & w2 & _ & Hi & E); [easy | easy |].
  unfold exec. rewrite E. cbn [snd this].
  destruct (settled_scoring its' (this w2)) as (_ & _ & ->).
  rewrite Hi. unfold before_loop, spawn_due. cbv zeta.
  destruct (spawnInterval (this w) <? spawnTimer (this w) + 1);
    cbn [this]; unfold stepped; fields; [reflexivity|].
  now rewrite app_nil_r.
Qed.

(** *** The states *)

Lemma handleCollision_state (item : Item.t) (w : World) :
  state (this (exec (handleCollision item) w)) = state (this w)
  \/ state (this (exec (handleCollision item) w)) = GAME_OVER.
Proof.
  hit_cases item w.
  - destruct (life (this w) - 1 <=? 0); [now right | now left].
  - destruct (life (this w) <=? 0); [now right|]. left.
    repeat match goal with |- context [if ?b then _ else _] =>
      destruct b; fields end; reflexivity.
Qed.

(** X13: no call takes the engine back to READY: after a call the state is what
    it was, or PLAYING, or GAME_OVER.  So READY is the state of an engine
    that has not been started, and of no other. *)
Theorem ready_is_never_reentered (c : Call) (w : World) (cs : list Call) :
  (state (this (exec (call c) w)) = state (this w)
   \/ state (this (exec (call c) w)) = PLAYING
   \/ state (this (exec (call c) w)) = GAME_OVER)
  /\ (state (this (run cs w)) = READY -> state (this w) = READY).
Proof.
  assert (forall c w,
            state (this (exec (call c) w)) = state (this w)
            \/ state (this (exec (call c) w)) = PLAYING
            \/ state (this (exec (call c) w)) = GAME_OVER) as H.
  { clear. intros c w. destruct c; cbn [call].
    - left. unfold exec. rewrite as_bind. unfold init. mexec. reflexivity.
    - right. left. unfold exec. now rewrite start_eq.
    - left. unfold exec. rewrite as_bind. unfold setPose.
      mexec; reflexivity.
    - unfold exec.
      destruct (state (this w)) eqn:Hs;
        try (rewrite update_idle by congruence; now left).
      destruct (canvas (this w)) as [cv|] eqn:Hc.
      + destruct (update_frame
                    (fun w0 => state (this w0) = PLAYING
                               \/ state (this w0) = GAME_OVER)
                    w cv Hs Hc) as (its' & w2 & H & _ & E).
        * left. unfold before_loop. cbv zeta.
          now destruct (spawn_due (this w)).
        * intros it w0 _ H0.
          destruct (handleCollision_state (advance it) w0) as [-> | ->];
            [exact H0 | now right].
        * intros w0 H0. unfold exec. now rewrite resetCombo_eq.
        * rewrite E. cbn [snd this].
          assert (state (settled its' (this w2)) = state (this w2)) as ->.
          { unfold settled.
            now destruct (0 <? shakeTimer (this w2)),
                         (0 <? flashTimer (this w2)). }
          destruct H as [-> | ->]; [now left | now right; right].
      + rewrite update_no_canvas by assumption. now left.
    - left. now rewrite draw_this.
    - left. unfold exec. destruct (spawnExplosion_spec x y color w)
        as (ps' & d & E & _). now rewrite E.
    - left. unfold exec. rewrite spawnItem_eq. now destruct (canvas (this w)).
    - left. unfold exec. now rewrite resetCombo_eq.
    - left. unfold exec. now rewrite notifyUI_eq.
    - right. right. unfold exec. now rewrite gameOver_eq.
    - now left.
    - now left. }
  split; [apply H|].
  revert w. induction cs as [|c' cs IH]; intros w Hr; [exact Hr|].
  cbn [run fold_left] in Hr. apply IH in Hr.
  destruct (H c' w) as [E | [E | E]]; congruence.
Qed.

End Properties.

(** ** Closed examples *)

(** Bursts on the empty pool of 100: six of 15, one of 10, then none. *)
Example bursts_fill_the_pool :
  bursts 8 world0 = [15; 30; 45; 60; 75; 90; 100; 100]%nat.
Proof. vm_compute. reflexivity. Qed.

(** C2, as the claim states it, fails: on the empty pool of 100 a request
    activates 15 particles, not the 95 of the claim's example (the method
    has no parameter for the number asked), and the request after it
    activates 15 more, not 5. *)
Lemma burst_is_fifteen :
  bursts 2 world0 = [15; 30]%nat
  /\ bursts 2 world0 <> [Nat.min 95 (100 - 0); (95 + Nat.min 10 (100 - 95))]%nat.
Proof. vm_compute. split; [reflexivity | discriminate]. Qed.

(** C4, as the claim states it, fails both ways.  From score 0 a caught
    apple gives score 100: no multiple of 1000 is crossed, and the base
    speed goes up.  From score 900 (three oranges) a fourth orange gives
    1200: 1000 is crossed, and the base speed stays. *)
Lemma speed_ramp_is_not_per_crossing :
  let hit := fun it w =>
    exec (handleCollision demo_random demo_cos demo_sin it) w in
  let w0 := playing400 in
  let w3 := hit an_orange (hit an_orange (hit an_orange w0)) in
  (score (this w0) = 0 /\ score (this (hit an_apple w0)) = 100
   /\ (baseSpeed (this w0) <? baseSpeed (this (hit an_apple w0)))%float = true)
  /\ (score (this w3) = 900 /\ score (this (hit an_orange w3)) = 1200
      /\ baseSpeed (this (hit an_orange w3)) = baseSpeed (this w3)).
Proof. vm_compute. repeat split. Qed.

(** Nine apples, then a tenth: the combo reaches 10 and the tenth apple is
    worth twice its 100 points. *)
Lemma combo_multiplier_witness :
  let hitAll := collisions demo_random demo_cos demo_sin in
  let hit := handleCollision demo_random demo_cos demo_sin in
  let w1 := hitAll (repeat an_apple 9) playing400 in
  combo (this (exec (hit an_apple) w1)) = 10
  /\ score (this (exec (hit an_apple) w1)) = score (this w1) + 100 * 2.
Proof.
  cbv zeta.
  pose proof (combo_multiplier demo_random demo_cos demo_sin playing400
                (repeat an_apple 9) an_apple) as H.
  cbv zeta in H.
  destruct H as (Hc & Hs & _).
  - reflexivity.
  - repeat constructor; discriminate.
  - discriminate.
  - split; [exact Hc | exact Hs].
Defined.

(** The scenario of the miss: the item is gone and the combo of 7 is 0. *)
Example miss_scenario :
  let w' := exec (update demo_random demo_cos demo_sin) w_miss in
  combo (this w_miss) = 7 /\ items (this w') = [] /\ combo (this w') = 0.
Proof. vm_compute. repeat split. Qed.

(** The miss scenario again, through the general statement. *)
Lemma missed_item_removed_witness :
  let upd := update demo_random demo_cos demo_sin in
  fst (upd w_miss) = Normal tt
  /\ ~ In (advance falling_out) (items (this (exec upd w_miss)))
  /\ combo (this (exec upd w_miss)) = 0.
Proof.
  cbv zeta.
  pose proof (missed_item_removed demo_random demo_cos demo_sin
                w_miss canvas400 falling_out) as H.
  cbv zeta in H.
  destruct H as (Hn & Hi & _ & Hc).
  - reflexivity.
  - reflexivity.
  - left. reflexivity.
  - vm_compute. reflexivity.
  - vm_compute. reflexivity.
  - split; [exact Hn|]. split; [exact Hi|]. apply (Hc []). reflexivity.
Defined.

(** *** Two hazards in one frame *)

(** C1 fails on the code.  After 366 frames of this session two bombs have
    been caught in two different frames: the game is on with one life left
    and the listener has not been called; the third and the fourth bomb
    are one step above the player's reach, the fourth having caught up.
    Frame 367 advances both to y = 1320, within 50 of the player at
    200, 1366.8: the loop handles both, the life goes to 0 and then to -1,
    and the game-end listener is called twice. *)
Theorem two_hazards_end_the_game_twice :
  let w := run crossing_random demo_cos demo_sin (session 366) world0 in
  let w' := exec (update crossing_random demo_cos demo_sin) w in
  (state (this w) = PLAYING /\ life (this w) = 1 /\ game_ends w = 0%nat
   /\ playerX (this w) = 200%float
   /\ map item_summary (firstn 2 (items (this w)))
      = [ (bomb, 200, 1314, 6); (bomb, 200, 1312.5, 7.5) ]%float)
  /\ (state (this w') = GAME_OVER /\ life (this w') = -1
      /\ game_ends w' = 2%nat).
Proof. vm_compute. repeat split. Qed.

(** The same frame from the state written down directly: one life left and
    two bombs over the player on the 400 by 400 canvas; the listener is
    called twice, and with the same arguments. *)
Example two_bombs_one_frame :
  let w' := exec (update demo_random demo_cos demo_sin) w_two_bombs in
  life (this w') = -1
  /\ effects w' = [OnGameEnd 0 1; OnGameEnd 0 1]
  /\ items (this w') = [].
Proof. vm_compute. repeat split. Qed.

(** *** Pose labels *)

(** The lane-discrete engine does ignore the case of the label. *)
Example simple_engine_ignores_case :
  pose_lanes ["left"; "center"; "LEFT"; "bogus"; "right"]
    (SimpleEngine.start SimpleEngine.constructor)
  = [0; 1; 0; 0; 2].
Proof. reflexivity. Qed.

(** C3 fails on the richer engine.  On the 400 by 400 canvas the claim's
    stream leaves the target where [init] put it, at 200, after every
    label: none of them is one of "Left", "Center", "Right".  The same
    stream with those spellings gives the lane centres of the claim. *)
Theorem setPose_is_case_sensitive :
  let laneWidth := (400 / 3)%float in
  pose_targets ["left"; "center"; "LEFT"; "bogus"; "right"] playing400
  = [200; 200; 200; 200; 200]%float
  /\ pose_targets ["Left"; "Center"; "Left"; "bogus"; "Right"] playing400
     = [laneWidth * 0.5; laneWidth * 1.5; laneWidth * 0.5; laneWidth * 0.5;
        laneWidth * 2.5]%float
  /\ (laneWidth * 0.5 <? 200)%float = true
  /\ (200 <? laneWidth * 2.5)%float = true.
Proof. vm_compute. repeat split. Qed.

(** "Right" on the 400 by 400 canvas: the target is the right lane's
    centre. *)
Lemma setPose_exact_labels_witness :
  fst (setPose "Right" playing400) = Normal tt
  /\ targetX (this (exec (setPose "Right") playing400))
     = (400 / 3 * 2.5)%float.
Proof.
  pose proof (setPose_exact_labels "Right" playing400 canvas400) as H.
  cbv zeta in H.
  destruct H as (Hn & Ht & _).
  - reflexivity.
  - reflexivity.
  - split; [exact Hn | exact Ht].
Defined.

(** ** The lane-discrete engine *)

Lemma simple_scoreDelta_bounds (type : string) :
  0 <= SimpleEngine.scoreDelta type <= 500.
Proof.
  unfold SimpleEngine.scoreDelta.
  repeat match goal with |- context [if ?b then _ else _] => destruct b end;
    lia.
Qed.

Lemma simple_handleCollision_fields (a b : bool) (it : SimpleEngine.Item)
    (g : SimpleEngine.t) :
  let g' := fst (SimpleEngine.handleCollision a b it g) in
  SimpleEngine.score g'
  = SimpleEngine.score g + SimpleEngine.scoreDelta (SimpleEngine.type it)
  /\ SimpleEngine.life g'
     = SimpleEngine.life g
       - (if (SimpleEngine.type it =? "bomb")%string then 1 else 0)
  /\ SimpleEngine.level g' = 1 + SimpleEngine.score g' / 1000
  /\ SimpleEngine.baseSpeed g'
     = (2.0 + Z2F (SimpleEngine.level g' - 1) * 0.5)%float.
Proof.
  cbv zeta. unfold SimpleEngine.handleCollision, SimpleEngine.gameOver.
  destruct (SimpleEngine.type it =? "bomb")%string;
    cbn -[Z.add Z.sub Z.div Z.mul Z.leb Z2F];
    match goal with |- context [if ?c then _ else _] => destruct c end;
    cbn -[Z.add Z.sub Z.div Z.mul Z.leb Z2F];
    repeat split; try reflexivity; lia.
Qed.

(** X14: from a game just started, after any collisions: the score is the sum
    of what the items are worth (a bomb nothing), never negative; the life
    is 3 less the bombs; the level is 1 plus the thousands of the score;
    and the base speed is 2 plus half a point per level gained. *)
Theorem simple_level_follows_score (a b : bool)
    (its : list SimpleEngine.Item) (g0 : SimpleEngine.t) :
  let g := SimpleEngine.collisions a b its (SimpleEngine.start g0) in
  SimpleEngine.score g = SimpleEngine.worth its
  /\ 0 <= SimpleEngine.score g
  /\ SimpleEngine.life g = 3 - SimpleEngine.bombs its
  /\ SimpleEngine.level g = 1 + SimpleEngine.score g / 1000
  /\ SimpleEngine.baseSpeed g
     = (2.0 + Z2F (SimpleEngine.score g / 1000) * 0.5)%float.
Proof.
  cbv zeta.
  assert (forall its g,
            0 <= SimpleEngine.score g ->
            SimpleEngine.level g = 1 + SimpleEngine.score g / 1000 ->
            SimpleEngine.baseSpeed g
            = (2.0 + Z2F (SimpleEngine.score g / 1000) * 0.5)%float ->
            let g' := SimpleEngine.collisions a b its g in
            SimpleEngine.score g'
            = SimpleEngine.score g + SimpleEngine.worth its
            /\ 0 <= SimpleEngine.score g'
            /\ SimpleEngine.life g'
               = SimpleEngine.life g - SimpleEngine.bombs its
            /\ SimpleEngine.level g' = 1 + SimpleEngine.score g' / 1000
            /\ SimpleEngine.baseSpeed g'
               = (2.0 + Z2F (SimpleEngine.score g' / 1000) * 0.5)%float)
    as H.
  { clear its g0. induction its as [|it its IH]; intros g Hs Hl Hv.
    - cbn. unfold SimpleEngine.bombs. cbn. repeat split; (lia || assumption).
    - cbv zeta. unfold SimpleEngine.collisions. cbn [fold_left].
      fold (SimpleEngine.collisions a b its
              (fst (SimpleEngine.handleCollision a b it g))).
      destruct (simple_handleCollision_fields a b it g)
        as (Es & El & Ev & Eb).
      pose proof (simple_scoreDelta_bounds (SimpleEngine.type it)) as Hd.
      destruct (IH (fst (SimpleEngine.handleCollision a b it g)))
        as (Is & Ip & Il & Iv & Ib).
      + lia.
      + exact Ev.
      + rewrite Eb, Ev. do 3 f_equal. lia.
      + split; [|split; [exact Ip|split; [|split; [exact Iv | exact Ib]]]].
        * rewrite Is, Es. cbn [SimpleEngine.worth fold_right].
          fold (SimpleEngine.worth its). lia.
        * rewrite Il, El. unfold SimpleEngine.bombs. cbn [filter].
          destruct (SimpleEngine.type it =? "bomb")%string;
            cbn [List.length]; lia. }
  destruct (H its (SimpleEngine.start g0)) as (Hs & Hp & Hl & Hv & Hb).
  - cbn. lia.
  - reflexivity.
  - reflexivity.
  - cbn [SimpleEngine.start SimpleEngine.score SimpleEngine.life] in Hs, Hl.
    repeat split; (assumption || lia).
Qed.

Lemma simple_upper_twice (c : ascii) :
  SimpleEngine.upper (SimpleEngine.upper c) = SimpleEngine.upper c.
Proof. destruct c as [[] [] [] [] [] [] [] []]; reflexivity. Qed.

Lemma simple_toUpperCase_twice (s : string) :
  SimpleEngine.toUpperCase (SimpleEngine.toUpperCase s)
  = SimpleEngine.toUpperCase s.
Proof.
  induction s as [|c s IH]; [reflexivity|].
  cbn [SimpleEngine.toUpperCase]. now rewrite simple_upper_twice, IH.
Qed.

Lemma simple_setPose_lane (l : string) (g : SimpleEngine.t) :
  0 <= SimpleEngine.playerLane g <= 2 ->
  0 <= SimpleEngine.playerLane (SimpleEngine.setPose l g) <= 2.
Proof.
  intros H. unfold SimpleEngine.setPose.
  repeat match goal with |- context [if ?b then _ else _] => destruct b end;
    cbn; lia.
Qed.

(** X15: [setPose] of the lane-discrete engine does not see the case of an
    ASCII label: a label and its upper-case form act alike.  Outside a
    game it changes nothing; and whatever labels a started game is sent,
    the player stays on lane 0, 1 or 2. *)
Theorem simple_setPose_ignores_case (l : string) (g : SimpleEngine.t)
    (labels : list string) :
  SimpleEngine.setPose (SimpleEngine.toUpperCase l) g
  = SimpleEngine.setPose l g
  /\ (if GameState_eqb (SimpleEngine.state g) PLAYING then True
      else SimpleEngine.setPose l g = g)
  /\ Forall (fun lane => 0 <= lane <= 2)
       (pose_lanes labels (SimpleEngine.start g)).
Proof.
  split; [|split].
  - unfold SimpleEngine.setPose. now rewrite simple_toUpperCase_twice.
  - unfold SimpleEngine.setPose.
    now destruct (GameState_eqb (SimpleEngine.state g) PLAYING).
  - assert (0 <= SimpleEngine.playerLane (SimpleEngine.start g) <= 2) as H
      by (cbn; lia).
    revert H. generalize (SimpleEngine.start g). clear g.
    induction labels as [|l' ls IH]; intros g H; [constructor|].
    cbn [pose_lanes]. constructor.
    + now apply simple_setPose_lane.
    + apply IH. now apply simple_setPose_lane.
Qed.

(** ** Witnesses of the further properties *)

(** A new engine is READY: a frame and a pose leave it as it is. *)
Lemma not_playing_is_idle_witness :
  update demo_random demo_cos demo_sin world0 = (Normal tt, world0)
  /\ setPose "Left" world0 = (Normal tt, world0).
Proof.
  apply (not_playing_is_idle demo_random demo_cos demo_sin world0 "Left").
  cbn. discriminate.
Defined.

(** [start()] without [init()]: the first frame raises. *)
Lemma playing_needs_a_canvas_witness :
  setPose "Left" started_blind = (TypeError, started_blind)
  /\ fst (update demo_random demo_cos demo_sin started_blind) = TypeError.
Proof.
  destruct (playing_needs_a_canvas demo_random demo_cos demo_sin
              started_blind "Left") as [H1 H2].
  - reflexivity.
  - reflexivity.
  - split; [exact H1 | now rewrite H2].
Defined.

(** The first frame of a game: the timer goes from 0 to 1, no item yet. *)
Lemma update_spawn_cadence_witness :
  let upd := update demo_random demo_cos demo_sin in
  fst (upd playing400) = Normal tt
  /\ spawnTimer (this (exec upd playing400)) = 1
  /\ (List.length (items (this (exec upd playing400))) <= 0)%nat.
Proof.
  cbv zeta.
  destruct (update_spawn_cadence demo_random demo_cos demo_sin
              playing400 canvas400) as (H1 & H2 & H3).
  - reflexivity.
  - reflexivity.
  - split; [exact H1|]. split; [exact H2 | exact H3].
Defined.

(** Frame 46 of the session on the tall canvas spawns a bomb. *)
Lemma items_come_from_the_table_witness :
  Item.type first_spawned = bomb <-> Item.score first_spawned = 0.
Proof.
  destruct (items_come_from_the_table crossing_random demo_cos demo_sin
              (session 46) first_spawned) as (_ & H & _).
  - vm_compute. left. reflexivity.
  - exact H.
Defined.

(** The frame of the two bombs ends the game, with no life left. *)
Lemma game_ends_only_without_life_witness :
  let w' := exec (update demo_random demo_cos demo_sin) w_two_bombs in
  (state (this w') = PLAYING /\ game_ends w' = game_ends w_two_bombs)
  \/ (state (this w') = GAME_OVER /\ life (this w') <= 0).
Proof.
  apply (game_ends_only_without_life demo_random demo_cos demo_sin
           w_two_bombs).
  reflexivity.
Defined.

(** An apple caught with a listener installed: one notification, of the
    values the engine is left with. *)
Lemma collision_reports_final_values_witness :
  let w' :=
    exec (handleCollision demo_random demo_cos demo_sin an_apple)
      listening400 in
  let g' := this w' in
  exists pre post,
    effects w'
    = (effects listening400 ++ pre
       ++ OnScoreChange (score g') (life g') (level g') (combo g') :: post)%list
    /\ (pre = [] \/ pre = [OnScoreChange (score g') (life g') (level g') 0])
    /\ (post = [] \/ post = [OnGameEnd (score g') (level g')]).
Proof.
  apply (collision_reports_final_values demo_random demo_cos demo_sin
           an_apple listening400).
  reflexivity.
Defined.

(** The miss scenario: the one item leaves the canvas, none is spawned. *)
Lemma update_keeps_items_in_order_witness :
  items (this (exec (update demo_random demo_cos demo_sin) w_miss)) = [].
Proof.
  pose proof (update_keeps_items_in_order demo_random demo_cos demo_sin
                w_miss canvas400 eq_refl eq_refl) as H.
  cbv zeta in H. rewrite H. vm_compute. reflexivity.
Defined.
